(** * EUROPA constraint engine: error facility, debug markers, integer type
      factory and the propagation core

    A shallow embedding of
    - [Utils/base/Error.hh]      (class [Error], the check macros),
    - [Utils/base/DebugMsg.hh]   (class [DebugMessage], marker matching),
    - [ConstraintEngine/component/IntervalIntTypeFactory.cc]
    together with a model of the domain algebra and of the agenda driven
    propagation loop those pieces plug into.

    Conventions.  A C++ [int] is a [Z]; [size_t] is a [Z] in [0, 2^64);
    [std::string] is [string]; an [edouble] is a rational [Q] (every [int]
    converts exactly).  Process wide statics ([Error::s_throw] and friends)
    are an explicit record threaded through every call, next to the state of
    the program proper; a call either returns, throws an [Error], aborts the
    process, or has no defined behaviour. *)

From Stdlib Require Import ZArith QArith Qround Qminmax String Ascii List Bool Lia.
From stdpp Require Import base option list strings.

Local Open Scope Z_scope.
Local Open Scope string_scope.
Local Open Scope list_scope.

(* ===================================================================== *)
(** * Part I.  Definitions                                                *)
(* ===================================================================== *)

(* --------------------------------------------------------------------- *)
(** ** Error.hh : class Error                                             *)
(* --------------------------------------------------------------------- *)

(** The five data members of [Error] (Error.hh, lines 523-527). *)
Record Error := mkError {
  m_condition : string;
  m_msg : string;
  m_file : string;
  m_line : Z;
  m_type : string
}.

(** The static data members [s_throw], [s_printErrors], [s_printWarnings]
    (the stream pointer [s_os] carries no logic and is left out). *)
Record ErrorStatics := mkStatics {
  s_throw : bool;
  s_printErrors : bool;
  s_printWarnings : bool
}.

(** [Error(const std::string& msg)], the inline constructor of line 304. *)
Definition Error_of_msg (msg : string) : Error :=
  {| m_condition := ""; m_msg := msg; m_file := ""; m_line := 0;
     m_type := "Error" |}.

(** Modelled from the spec: the bodies of the constructors declared at lines
    277, 282 and 292 of Error.hh live in Error.cc, which is absent.  Each is
    taken to store its arguments in the members of the same name; a
    constructor without a [type] argument leaves the type at ["Error"], as
    the two inline constructors do. *)
Definition Error_cfl (condition file : string) (line : Z) : Error :=
  {| m_condition := condition; m_msg := ""; m_file := file; m_line := line;
     m_type := "Error" |}.

Definition Error_cmfl (condition msg file : string) (line : Z) : Error :=
  {| m_condition := condition; m_msg := msg; m_file := file; m_line := line;
     m_type := "Error" |}.

Definition Error_cmtfl (condition msg type file : string) (line : Z) : Error :=
  {| m_condition := condition; m_msg := msg; m_file := file; m_line := line;
     m_type := type |}.

(** Copy constructor, lines 311-314: four members are copied, [m_type] is
    initialised with the literal ["Error"]. *)
Definition Error_copy (err : Error) : Error :=
  {| m_condition := m_condition err; m_msg := m_msg err;
     m_file := m_file err; m_line := m_line err; m_type := "Error" |}.

(** [operator=], lines 319-325: four members of [*this] are overwritten,
    [m_type] of [*this] is not assigned. *)
Definition Error_assign (this err : Error) : Error :=
  {| m_condition := m_condition err; m_msg := m_msg err;
     m_file := m_file err; m_line := m_line err; m_type := m_type this |}.

Definition setMsg (this : Error) (msg : string) : Error :=
  {| m_condition := m_condition this; m_msg := msg; m_file := m_file this;
     m_line := m_line this; m_type := m_type this |}.

Definition setType (this : Error) (type : string) : Error :=
  {| m_condition := m_condition this; m_msg := m_msg this;
     m_file := m_file this; m_line := m_line this; m_type := type |}.

Definition setFile (this : Error) (file : string) : Error :=
  {| m_condition := m_condition this; m_msg := m_msg this; m_file := file;
     m_line := m_line this; m_type := m_type this |}.

Definition getMsg (this : Error) : string := m_msg this.
Definition getType (this : Error) : string := m_type this.
Definition getCondition (this : Error) : string := m_condition this.
Definition getLine (this : Error) : Z := m_line this.
Definition getFile (this : Error) : string := m_file this.

(** [operator==], lines 435-440. *)
Definition Error_eq (this err : Error) : bool :=
  String.eqb (m_condition this) (m_condition err)
  && String.eqb (m_msg this) (m_msg err)
  && String.eqb (m_file this) (m_file err)
  && Z.eqb (m_line this) (m_line err).

(** [matches], lines 446-450: as [operator==] but for the line. *)
Definition Error_matches (this err : Error) : bool :=
  String.eqb (m_condition this) (m_condition err)
  && String.eqb (m_msg this) (m_msg err)
  && String.eqb (m_file this) (m_file err).

(** The static switches of lines 388-509. *)
Definition printingErrors (g : ErrorStatics) : bool := s_printErrors g.
Definition displayWarnings (g : ErrorStatics) : bool := s_printWarnings g.
Definition throwEnabled (g : ErrorStatics) : bool := s_throw g.

Definition doDisplayErrors (g : ErrorStatics) : ErrorStatics :=
  {| s_throw := s_throw g; s_printErrors := true;
     s_printWarnings := s_printWarnings g |}.
Definition doNotDisplayErrors (g : ErrorStatics) : ErrorStatics :=
  {| s_throw := s_throw g; s_printErrors := false;
     s_printWarnings := s_printWarnings g |}.
Definition doDisplayWarnings (g : ErrorStatics) : ErrorStatics :=
  {| s_throw := s_throw g; s_printErrors := s_printErrors g;
     s_printWarnings := true |}.
Definition doNotDisplayWarnings (g : ErrorStatics) : ErrorStatics :=
  {| s_throw := s_throw g; s_printErrors := s_printErrors g;
     s_printWarnings := false |}.
Definition doThrowExceptions (g : ErrorStatics) : ErrorStatics :=
  {| s_throw := true; s_printErrors := s_printErrors g;
     s_printWarnings := s_printWarnings g |}.
Definition doNotThrowExceptions (g : ErrorStatics) : ErrorStatics :=
  {| s_throw := false; s_printErrors := s_printErrors g;
     s_printWarnings := s_printWarnings g |}.

(* --------------------------------------------------------------------- *)
(** ** Calls: statics and program state threaded, four ways to end        *)
(* --------------------------------------------------------------------- *)

(** How a call ends.  [Returned] and [Thrown] hand back the statics and the
    program state as they are at that point; [Aborted] ends the process;
    [Undefined] stands for behaviour the language leaves undefined (a null
    pointer dereferenced, an [atoi] result that does not fit). *)
Inductive outcome (St A : Type) : Type :=
| Returned (a : A) (g : ErrorStatics) (s : St)
| Thrown (e : Error) (g : ErrorStatics) (s : St)
| Aborted (e : Error)
| Undefined.

Arguments Returned {St A} a g s.
Arguments Thrown {St A} e g s.
Arguments Aborted {St A} e.
Arguments Undefined {St A}.

Definition prog (St A : Type) : Type := ErrorStatics -> St -> outcome St A.

Definition ret {St A} (a : A) : prog St A := fun g s => Returned a g s.

Definition bind {St A B} (c : prog St A) (k : A -> prog St B) : prog St B :=
  fun g s =>
    match c g s with
    | Returned a g' s' => k a g' s'
    | Thrown e g' s' => Thrown e g' s'
    | Aborted e => Aborted e
    | Undefined => Undefined
    end.

(** [throw e;] : the exception object is copy-initialised from the operand,
    by the copy constructor of [Error]; it is the copy that travels. *)
Definition throw {St A} (e : Error) : prog St A :=
  fun g s => Thrown (Error_copy e) g s.
Definition undefined {St A} : prog St A := fun _ _ => Undefined.

Notation "'let!' x ':=' c 'in' k" := (bind c (fun x => k))
  (at level 10, x name, c at level 100, k at level 200).
Notation "c ;; k" := (bind c (fun _ => k))
  (at level 100, k at level 200, right associativity).

(** The call ended with exception object [e] in flight, or with the
    process aborted on [e]; [raises]: the error [e] built at the point of
    failure ended the call, as a thrown copy or by abort. *)
Definition throws {St A} (r : outcome St A) (e : Error) : Prop :=
  exists g s, r = Thrown e g s.
Definition aborts {St A} (r : outcome St A) (e : Error) : Prop :=
  r = Aborted e.
Definition raises {St A} (r : outcome St A) (e : Error) : Prop :=
  throws r (Error_copy e) \/ aborts r e.
Definition returns {St A} (r : outcome St A) : Prop :=
  exists a g s, r = Returned a g s.

(** Boolean form of "some error was raised", for evaluation. *)
Definition is_error {St A} (r : outcome St A) : bool :=
  match r with
  | Thrown _ _ _ | Aborted _ => true
  | Returned _ _ _ | Undefined => false
  end.

(* --------------------------------------------------------------------- *)
(** ** Error.hh : the check macros                                        *)
(* --------------------------------------------------------------------- *)

(** Modelled from the spec: the body of [Error::handleAssert] (declared at
    line 519 with [__attribute__((noreturn))]) is in Error.cc, which is
    absent.  Its documentation reads "actually throw the exception or
    complain and abort; which is done depends on throwEnabled()". *)
Definition handleAssert {St A} (e : Error) : prog St A :=
  fun g s => if throwEnabled g then throw e g s else Aborted e.

(** [EUROPA_ERROR(__e__)], line 66. *)
Definition EUROPA_ERROR {St A} (e : Error) : prog St A :=
  fun g s => if throwEnabled g then throw e g s else handleAssert e g s.

(** What the preprocessor supplies at a use of a macro: [#cond], [__FILE__]
    and [__LINE__]. *)
Record Site := mkSite {
  site_cond : string;
  site_file : string;
  site_line : Z
}.

(** What the preprocessor does to the text of a macro argument when it
    expands the macros in it, and what it puts for [__FILE__]: both depend
    on the compiler, its headers and the way it is called. *)
Record TranslationUnit := mkUnit {
  tu_expand : string -> string;
  tu_file : string
}.

(** A use of a check macro: the condition as it is written in the source,
    and the line of the use. *)
Record Use := mkUse {
  use_text : string;
  use_line : Z
}.

(** [check_error(...)], [checkError(...)], [check_runtime_error(...)],
    [assertTrue(...)] and [assertFalse(...)] hand their arguments on to a
    second macro (lines 87-90 and 245-255) before [#cond] is reached: the
    macros in the condition are expanded by then, and it is the expansion
    that is turned into a string. *)
Definition site_expanded (tu : TranslationUnit) (u : Use) : Site :=
  mkSite (tu_expand tu (use_text u)) (tu_file tu) (use_line u).

(** [checkRuntimeError(cond, msg)] has [#cond] in its own body (line 262):
    the condition is turned into a string as it is written. *)
Definition site_written (tu : TranslationUnit) (u : Use) : Site :=
  mkSite (use_text u) (tu_file tu) (use_line u).

(** The optional arguments after the condition; [NARG3] counts them and picks
    the macro of that arity. *)
Inductive CheckArgs :=
| NoArgs
| WithMsg (msg : string)
| WithMsgType (msg type : string).

(** The [Error __e__(...)] declaration of the macro of each arity. *)
Definition site_error (site : Site) (args : CheckArgs) : Error :=
  match args with
  | NoArgs => Error_cfl (site_cond site) (site_file site) (site_line site)
  | WithMsg msg =>
      Error_cmfl (site_cond site) msg (site_file site) (site_line site)
  | WithMsgType msg type =>
      Error_cmtfl (site_cond site) msg type (site_file site) (site_line site)
  end.

(** Whether the translation unit is compiled with [EUROPA_FAST] defined. *)
Inductive Build := Checked | Fast.

(** The body shared by every active macro:
    [if(!(cond)) { Error __e__(...); EUROPA_ERROR(__e__); }]. *)
Definition check_body {St} (site : Site) (cond : prog St bool)
    (args : CheckArgs) : prog St unit :=
  let! c := cond in
  if c then ret tt else EUROPA_ERROR (site_error site args).

(** [check_error1/2/3]: lines 111-113 under [EUROPA_FAST], 164-178 without.
    The condition is a computation: under [EUROPA_FAST] it is not run. *)
Definition check_error {St} (b : Build) (site : Site) (cond : prog St bool)
    (args : CheckArgs) : prog St unit :=
  match b with
  | Fast => ret tt
  | Checked => check_body site cond args
  end.

(** [checkError1/2/3]: lines 114-116 under [EUROPA_FAST], 180-200 without
    (the message is streamed into a string first, the type is [#type]). *)
Definition checkError {St} (b : Build) (site : Site) (cond : prog St bool)
    (args : CheckArgs) : prog St unit :=
  match b with
  | Fast => ret tt
  | Checked => check_body site cond args
  end.

(** [check_runtime_error1/2/3], lines 230-244, outside the [#ifdef]. *)
Definition check_runtime_error {St} (b : Build) (site : Site)
    (cond : prog St bool) (args : CheckArgs) : prog St unit :=
  check_body site cond args.

(** [checkRuntimeError(cond, msg)], lines 258-264, outside the [#ifdef]. *)
Definition checkRuntimeError {St} (b : Build) (site : Site)
    (cond : prog St bool) (msg : string) : prog St unit :=
  let! c := cond in
  if c then ret tt
  else fun g s =>
         let e := Error_cmfl (site_cond site) msg (site_file site)
                    (site_line site) in
         if throwEnabled g then throw e g s else handleAssert e g s.

(** A [bool] where an integer is wanted: [false] is 0 and [true] is 1. *)
Definition int_of_bool (b : bool) : Z := if b then 1 else 0.

(** An integer where a [bool] is wanted, as in [if(!(cond))]: zero is
    [false], anything else [true]. *)
Definition truth (c : Z) : bool := negb (c =? 0)%Z.

(** [assert1/2/3] behind [assertTrue] ([value] is [false]) and [assertFalse]
    ([value] is [true]), lines 68-90: raise when [(cond) == value].  The
    two sides are compared as integers: the condition comes with the
    integer it evaluates to (0 or 1 for a [bool]), and [value] converts to
    0 or 1. *)
Definition assert_ {St} (value : bool) (site : Site) (cond : prog St Z)
    (args : CheckArgs) : prog St unit :=
  let! c := cond in
  if (c =? int_of_bool value)%Z then EUROPA_ERROR (site_error site args)
  else ret tt.

Definition assertTrue {St} := @assert_ St false.
Definition assertFalse {St} := @assert_ St true.

(** The two run-time checks at one use, each with the condition text its
    own macro puts into the [Error]. *)
Definition use_check_runtime_error {St} (tu : TranslationUnit) (b : Build)
    (u : Use) (cond : prog St bool) (args : CheckArgs) : prog St unit :=
  check_runtime_error b (site_expanded tu u) cond args.

Definition use_checkRuntimeError {St} (tu : TranslationUnit) (b : Build)
    (u : Use) (cond : prog St bool) (msg : string) : prog St unit :=
  checkRuntimeError b (site_written tu u) cond msg.

(** The three families of checks, to speak about them together. *)
Inductive CheckMacro := M_check_error | M_checkError | M_check_runtime_error.

Definition run_check {St} (m : CheckMacro) :
    Build -> Site -> prog St bool -> CheckArgs -> prog St unit :=
  match m with
  | M_check_error => check_error
  | M_checkError => checkError
  | M_check_runtime_error => check_runtime_error
  end.

(* --------------------------------------------------------------------- *)
(** ** DebugMsg.hh : class DebugMessage                                   *)
(* --------------------------------------------------------------------- *)

(** The data members of [DebugMessage], lines 386-401. *)
Record DebugMessage := mkDebugMessage {
  dm_file : string;
  dm_line : Z;
  dm_marker : string;
  dm_enabled : bool
}.

Definition getMarker (dm : DebugMessage) : string := dm_marker dm.
Definition isEnabled (dm : DebugMessage) : bool := dm_enabled dm.

(** [disable()], lines 323-325. *)
Definition disable (dm : DebugMessage) : DebugMessage :=
  {| dm_file := dm_file dm; dm_line := dm_line dm;
     dm_marker := dm_marker dm; dm_enabled := false |}.

(** [std::string::npos], the largest [size_t]. *)
Definition npos : Z := 2 ^ 64 - 1.

(** [s.length()]. *)
Definition length_ (s : string) : Z := Z.of_nat (String.length s).

(** Does [p] start [s]? *)
Fixpoint starts_with (p s : string) : bool :=
  match p, s with
  | EmptyString, _ => true
  | String a p', String b s' => Ascii.eqb a b && starts_with p' s'
  | String _ _, EmptyString => false
  end.

(** [std::string::find(pattern)] scanning from position [pos] of the
    original string, [s] being what is left of it: the first position at
    which [pattern] starts, [npos] when there is none. *)
Fixpoint find_from (pos : Z) (s pattern : string) : Z :=
  if starts_with pattern s then pos
  else match s with
       | EmptyString => npos
       | String _ s' => find_from (pos + 1) s' pattern
       end.

Definition find (s pattern : string) : Z := find_from 0 s pattern.

(** [DebugMessage::markerMatches], lines 408-415. *)
Definition markerMatches (marker pattern : string) : bool :=
  if (length_ pattern <? 1)%Z then true
  else if (length_ marker <? length_ pattern)%Z then false
  else (find marker pattern <? length_ marker)%Z.

(** [p] occurs in [m] as a block of consecutive characters. *)
Definition substring_of (p m : string) : Prop :=
  exists pre post : string, m = String.append pre (String.append p post).

(* --------------------------------------------------------------------- *)
(** ** The C library's atoi                                               *)
(* --------------------------------------------------------------------- *)

(** [isspace] and [isdigit] of the "C" locale. *)
Definition isspace (c : ascii) : bool :=
  let n := Z.of_nat (nat_of_ascii c) in
  ((n =? 32) || ((9 <=? n) && (n <=? 13)))%Z.

Definition isdigit (c : ascii) : bool :=
  let n := Z.of_nat (nat_of_ascii c) in
  ((48 <=? n) && (n <=? 57))%Z.

Definition digit_value (c : ascii) : Z := Z.of_nat (nat_of_ascii c) - 48.

Fixpoint skip_spaces (s : string) : string :=
  match s with
  | String c s' => if isspace c then skip_spaces s' else s
  | EmptyString => s
  end.

(** Base ten accumulation over the leading digits; stops at the first
    character that is not a digit, the terminating NUL of [c_str()] or any
    NUL inside the string included. *)
Fixpoint digits_value (acc : Z) (s : string) : Z :=
  match s with
  | String c s' =>
      if isdigit c then digits_value (10 * acc + digit_value c) s' else acc
  | EmptyString => acc
  end.

(** The integer [strtol(s, NULL, 10)] reads: white space, an optional sign,
    then digits; [0] when no digit is found there. *)
Definition strtol_value (s : string) : Z :=
  match skip_spaces s with
  | String c s' =>
      if Ascii.eqb c "-" then - digits_value 0 s'
      else if Ascii.eqb c "+" then digits_value 0 s'
      else digits_value 0 (String c s')
  | EmptyString => 0
  end.

Definition INT_MIN : Z := - 2 ^ 31.
Definition INT_MAX : Z := 2 ^ 31 - 1.

(** [atoi]: the value read when an [int] can hold it; otherwise the C
    standard leaves the behaviour undefined ([None]). *)
Definition atoi (s : string) : option Z :=
  let v := strtol_value s in
  if ((INT_MIN <=? v) && (v <=? INT_MAX))%Z then Some v else None.

Definition edouble : Type := Q.

(** A well-formed integer literal: an optional sign and then one or more
    decimal digits, nothing before and nothing after. *)
Fixpoint all_digits (s : string) : bool :=
  match s with
  | EmptyString => true
  | String c s' => isdigit c && all_digits s'
  end.

Definition unsigned_literal (s : string) : bool :=
  match s with
  | EmptyString => false
  | String _ _ => all_digits s
  end.

Definition is_sign (c : ascii) : bool := Ascii.eqb c "+" || Ascii.eqb c "-".

Definition well_formed_literal (s : string) : bool :=
  match s with
  | String c s' => if is_sign c then unsigned_literal s' else unsigned_literal s
  | EmptyString => false
  end.

(** The pieces a string falls into under [atoi]: white space, a sign or
    none, digits, and a rest that does not go on with a digit. *)
Fixpoint all_spaces (s : string) : bool :=
  match s with
  | EmptyString => true
  | String c s' => isspace c && all_spaces s'
  end.

Inductive Sign := NoSign | Plus | Minus.

Definition sign_text (sg : Sign) : string :=
  match sg with NoSign => "" | Plus => "+" | Minus => "-" end.

Definition sign_factor (sg : Sign) : Z :=
  match sg with Minus => -1 | _ => 1 end.

(** The number a string of digits denotes in base ten. *)
Fixpoint decimal (ds : string) : Z :=
  match ds with
  | EmptyString => 0
  | String c ds' => digit_value c * 10 ^ length_ ds' + decimal ds'
  end.

(** The first character of [s], if there is one, does not satisfy [P]. *)
Definition not_first (P : ascii -> bool) (s : string) : bool :=
  match s with
  | String c _ => negb (P c)
  | EmptyString => true
  end.

(* --------------------------------------------------------------------- *)
(** ** Domains                                                            *)
(* --------------------------------------------------------------------- *)

(** Modelled from the spec: the domain classes are only forward declared in
    ConstraintEngineDefs.hh (lines 19-23 and 66); what follows is the data
    model and the algebra of sections 3 and 4.1 of the specification: a
    closed sum over the five kinds, real bounds for Interval, integer bounds
    for IntervalInt, a member list and an is-open flag for the enumerated
    kinds. *)
Inductive Value :=
| VNum (q : Q)
| VBool (b : bool)
| VLabel (s : string).

(** Modelled from the spec: The five kinds of domain (section 3): real
    bounds, integer bounds, and a member list, with an is-open flag where
    the set may still grow. *)
Inductive Domain :=
| IntervalDomain (lb ub : Q)
| IntervalIntDomain (lb ub : Z)
| EnumeratedDomain (members : list Q) (isOpen : bool)
| BoolDomain (members : list bool)
| StringDomain (members : list string) (isOpen : bool).

(** Modelled from the spec: The kind tag of a domain. *)
Inductive Kind := KInterval | KIntervalInt | KEnumerated | KBool | KLabel.

(** Modelled from the spec: The kind tag of a domain, read off its variant. *)
Definition kind_of (d : Domain) : Kind :=
  match d with
  | IntervalDomain _ _ => KInterval
  | IntervalIntDomain _ _ => KIntervalInt
  | EnumeratedDomain _ _ => KEnumerated
  | BoolDomain _ => KBool
  | StringDomain _ _ => KLabel
  end.

(** Equality test on kinds. *)
Definition Kind_eqb (a b : Kind) : bool :=
  match a, b with
  | KInterval, KInterval | KIntervalInt, KIntervalInt
  | KEnumerated, KEnumerated | KBool, KBool | KLabel, KLabel => true
  | _, _ => false
  end.

(** Strict order on rationals, as a test. *)
Definition Qlt_bool (a b : Q) : bool := negb (Qle_bool b a).

(** Is the rational a whole number? *)
Definition is_integer (q : Q) : bool := Qeq_bool q (inject_Z (Qfloor q)).

(** Modelled from the spec: [isEmpty()]: no satisfying value. *)
Definition isEmpty (d : Domain) : bool :=
  match d with
  | IntervalDomain lb ub => Qlt_bool ub lb
  | IntervalIntDomain lb ub => (ub <? lb)%Z
  | EnumeratedDomain ms _ => match ms with [] => true | _ => false end
  | BoolDomain ms => match ms with [] => true | _ => false end
  | StringDomain ms _ => match ms with [] => true | _ => false end
  end.

(** Modelled from the spec: [isMember(value)]. *)
Definition isMember (v : Value) (d : Domain) : bool :=
  match d, v with
  | IntervalDomain lb ub, VNum q => Qle_bool lb q && Qle_bool q ub
  | IntervalIntDomain lb ub, VNum q =>
      is_integer q && Qle_bool (inject_Z lb) q && Qle_bool q (inject_Z ub)
  | EnumeratedDomain ms _, VNum q => existsb (Qeq_bool q) ms
  | BoolDomain ms, VBool b => existsb (Bool.eqb b) ms
  | StringDomain ms _, VLabel s => existsb (String.eqb s) ms
  | _, _ => false
  end.

(** Modelled from the spec: [isSingleton()]: exactly one member. *)
Definition isSingleton (d : Domain) : bool :=
  match d with
  | IntervalDomain lb ub => Qeq_bool lb ub
  | IntervalIntDomain lb ub => (lb =? ub)%Z
  | EnumeratedDomain ms _ => match ms with [_] => true | _ => false end
  | BoolDomain ms => match ms with [_] => true | _ => false end
  | StringDomain ms _ => match ms with [_] => true | _ => false end
  end.

(** Modelled from the spec: [size()]: the finite cardinality; [None] reports
    "continuous". *)
Definition size (d : Domain) : option Z :=
  match d with
  | IntervalDomain lb ub =>
      if Qlt_bool ub lb then Some 0%Z
      else if Qeq_bool lb ub then Some 1%Z else None
  | IntervalIntDomain lb ub => Some (Z.max 0 (ub - lb + 1))
  | EnumeratedDomain ms _ => Some (Z.of_nat (length ms))
  | BoolDomain ms => Some (Z.of_nat (length ms))
  | StringDomain ms _ => Some (Z.of_nat (length ms))
  end.

(** Modelled from the spec: Interval, IntervalInt and Bool are always closed. *)
Definition isOpen (d : Domain) : bool :=
  match d with
  | EnumeratedDomain _ o | StringDomain _ o => o
  | _ => false
  end.

(** Two lists equal entry by entry, under [eqb]. *)
Fixpoint list_eqb {A} (eqb : A -> A -> bool) (l1 l2 : list A) : bool :=
  match l1 with
  | [] => match l2 with [] => true | _ :: _ => false end
  | a :: l1' =>
      match l2 with
      | b :: l2' => eqb a b && list_eqb eqb l1' l2'
      | [] => false
      end
  end.

(** Modelled from the spec: Equality of domains: same kind, same
    representation of the members. *)
Definition Domain_eqb (d1 d2 : Domain) : bool :=
  match d1, d2 with
  | IntervalDomain l1 u1, IntervalDomain l2 u2 =>
      Qeq_bool l1 l2 && Qeq_bool u1 u2
  | IntervalIntDomain l1 u1, IntervalIntDomain l2 u2 =>
      ((l1 =? l2) && (u1 =? u2))%Z
  | EnumeratedDomain m1 o1, EnumeratedDomain m2 o2 =>
      list_eqb Qeq_bool m1 m2 && Bool.eqb o1 o2
  | BoolDomain m1, BoolDomain m2 => list_eqb Bool.eqb m1 m2
  | StringDomain m1 o1, StringDomain m2 o2 =>
      list_eqb String.eqb m1 m2 && Bool.eqb o1 o2
  | _, _ => false
  end.

(** Modelled from the spec: The events a mutation emits (section 4.2). *)
Inductive DomainEvent :=
| RESTRICTED | EMPTIED | SET_TO_SINGLETON | RELAXED | RESET | CLOSED.

(** Modelled from the spec: Why an operation on a domain is refused (the
    value errors of section 7 and the mismatch of kinds). *)
Inductive DomainError := TypeMismatch | NotAMember | NotASubset.

(** Modelled from the spec: What an operation on a domain reports: nothing
    happened, the domain is now [d'] and [ev] was emitted, or the operation
    was refused and the domain is as it was. *)
Inductive DomainResult :=
| Unchanged
| Changed (d' : Domain) (ev : DomainEvent)
| Failed (err : DomainError).

(** Modelled from the spec: Whether the domain changed. *)
Definition changed (r : DomainResult) : bool :=
  match r with Changed _ _ => true | _ => false end.

(** Modelled from the spec: Whether the domain became empty. *)
Definition emptied (r : DomainResult) : bool :=
  match r with Changed _ EMPTIED => true | _ => false end.

(** The domain once the operation is over. *)
Definition domain_after (d : Domain) (r : DomainResult) : Domain :=
  match r with Changed d' _ => d' | _ => d end.

(** Modelled from the spec: Bounds of a numeric interval, as reals. *)
Definition numeric_bounds (d : Domain) : option (Q * Q) :=
  match d with
  | IntervalDomain lb ub => Some (lb, ub)
  | IntervalIntDomain lb ub => Some (inject_Z lb, inject_Z ub)
  | _ => None
  end.

(** Modelled from the spec: From the overlap [d'] computed for [d] to the
    report. *)
Definition shrink_to (d d' : Domain) : DomainResult :=
  if Domain_eqb d d' then Unchanged
  else if isEmpty d' then Changed d' EMPTIED
  else Changed d' RESTRICTED.

(** Modelled from the spec: [intersect(other)]. Numeric intervals: elementwise
    max of the lower and min of the upper bounds, IntervalInt rounding the
    lower bound up and the upper bound down; member sets: the members that are
    also members of [other]. An empty domain has nothing left to lose. *)
Definition intersect (d other : Domain) : DomainResult :=
  if isEmpty d then Unchanged
  else
    match d with
    | IntervalDomain lb ub =>
        match numeric_bounds other with
        | Some (olb, oub) =>
            shrink_to d (IntervalDomain (Qmax lb olb) (Qmin ub oub))
        | None => Failed TypeMismatch
        end
    | IntervalIntDomain lb ub =>
        match numeric_bounds other with
        | Some (olb, oub) =>
            shrink_to d
              (IntervalIntDomain (Qceiling (Qmax (inject_Z lb) olb))
                                 (Qfloor (Qmin (inject_Z ub) oub)))
        | None => Failed TypeMismatch
        end
    | EnumeratedDomain ms o =>
        match other with
        | EnumeratedDomain _ _ =>
            shrink_to d
              (EnumeratedDomain
                 (List.filter (fun q => isMember (VNum q) other) ms) o)
        | _ => Failed TypeMismatch
        end
    | BoolDomain ms =>
        match other with
        | BoolDomain _ =>
            shrink_to d
              (BoolDomain (List.filter (fun b => isMember (VBool b) other) ms))
        | _ => Failed TypeMismatch
        end
    | StringDomain ms o =>
        match other with
        | StringDomain _ _ =>
            shrink_to d
              (StringDomain
                 (List.filter (fun s => isMember (VLabel s) other) ms) o)
        | _ => Failed TypeMismatch
        end
    end.

(** Modelled from the spec: The single-value domain [{v}] of the kind of [d]. *)
Definition singleton_like (d : Domain) (v : Value) : option Domain :=
  match d, v with
  | IntervalDomain _ _, VNum q => Some (IntervalDomain q q)
  | IntervalIntDomain _ _, VNum q =>
      Some (IntervalIntDomain (Qceiling q) (Qfloor q))
  | EnumeratedDomain _ _, VNum q => Some (EnumeratedDomain [q] false)
  | BoolDomain _, VBool b => Some (BoolDomain [b])
  | StringDomain _ _, VLabel s => Some (StringDomain [s] false)
  | _, _ => None
  end.

(** Modelled from the spec: [restrictToSingleton(value)]: refused when [value]
    is not a member, otherwise the intersection with [{value}]. *)
Definition restrictToSingleton (d : Domain) (v : Value) : DomainResult :=
  if isMember v d then
    match singleton_like d v with
    | Some sv =>
        match intersect d sv with
        | Changed d' RESTRICTED => Changed d' SET_TO_SINGLETON
        | r => r
        end
    | None => Failed TypeMismatch
    end
  else Failed NotAMember.

(** Modelled from the spec: [d] within [towards], for domains of one kind. *)
Definition isSubsetOf (d towards : Domain) : bool :=
  isEmpty d ||
  match d, towards with
  | IntervalDomain lb ub, IntervalDomain tlb tub =>
      Qle_bool tlb lb && Qle_bool ub tub
  | IntervalIntDomain lb ub, IntervalIntDomain tlb tub =>
      ((tlb <=? lb) && (ub <=? tub))%Z
  | EnumeratedDomain ms _, EnumeratedDomain _ _ =>
      forallb (fun q => isMember (VNum q) towards) ms
  | BoolDomain ms, BoolDomain _ =>
      forallb (fun b => isMember (VBool b) towards) ms
  | StringDomain ms _, StringDomain _ _ =>
      forallb (fun s => isMember (VLabel s) towards) ms
  | _, _ => false
  end.

(** Modelled from the spec: [relax(towards)]: widen to [towards]; refused when
    the domain is not within [towards]. *)
Definition relax (d towards : Domain) : DomainResult :=
  if negb (Kind_eqb (kind_of d) (kind_of towards)) then Failed TypeMismatch
  else if isSubsetOf d towards then
    if Domain_eqb d towards then Unchanged else Changed towards RELAXED
  else Failed NotASubset.

(** Modelled from the spec: [close()], for Enumerated and Label only. *)
Definition close (d : Domain) : DomainResult :=
  match d with
  | EnumeratedDomain ms true => Changed (EnumeratedDomain ms false) CLOSED
  | StringDomain ms true => Changed (StringDomain ms false) CLOSED
  | _ => Unchanged
  end.

(** [D] within [base], as sets of values. *)
Definition subset (d base : Domain) : Prop :=
  forall v, isMember v d = true -> isMember v base = true.

(* --------------------------------------------------------------------- *)
(** ** Variables, constraints, propagators, the engine                    *)
(* --------------------------------------------------------------------- *)

(** Modelled from the spec: ConstrainedVariable, Constraint, Propagator and
    ConstraintEngine are only forward declared in ConstraintEngineDefs.hh
    (lines 28-47); the records follow section 3 of the specification, with
    variables and constraints held in arenas and named by their index. *)
Abbreviation VarId := nat (only parsing).
Abbreviation ConstraintId := nat (only parsing).
Abbreviation EntityId := nat (only parsing).

(** Modelled from the spec: The attributes of a variable (section 3);
    [v_constraints] is the set of constraints referencing it, in the order
    they registered. *)
Record ConstrainedVariable := mkVariable {
  v_current : Domain;
  v_base : Domain;
  v_internal : bool;
  v_specifiable : bool;
  v_name : string;
  v_parent : option EntityId;
  v_index : Z;
  v_constraints : list ConstraintId
}.

(** The variable with its current domain replaced. *)
Definition with_current (d : Domain) (v : ConstrainedVariable)
    : ConstrainedVariable :=
  {| v_current := d; v_base := v_base v; v_internal := v_internal v;
     v_specifiable := v_specifiable v; v_name := v_name v;
     v_parent := v_parent v; v_index := v_index v;
     v_constraints := v_constraints v |}.

(** The variable with one more referencing constraint, unless it is there
    already. *)
Definition with_listener (c : ConstraintId) (v : ConstrainedVariable)
    : ConstrainedVariable :=
  {| v_current := v_current v; v_base := v_base v;
     v_internal := v_internal v; v_specifiable := v_specifiable v;
     v_name := v_name v; v_parent := v_parent v; v_index := v_index v;
     v_constraints :=
       if existsb (Nat.eqb c) (v_constraints v) then v_constraints v
       else v_constraints v ++ [c] |}.

(** Modelled from the spec: What a propagation function, or a caller, may ask
    of a variable. *)
Inductive DomainOp :=
| OpIntersect (other : Domain)
| OpRestrictToSingleton (x : Value)
| OpRelax (towards : Domain).

(** Modelled from the spec: The operation applied to the current domain of
    [v]. Relaxation never goes beyond the base domain and reports [RESET] when
    it lands on it. *)
Definition apply_op (v : ConstrainedVariable) (op : DomainOp) : DomainResult :=
  match op with
  | OpIntersect other => intersect (v_current v) other
  | OpRestrictToSingleton x => restrictToSingleton (v_current v) x
  | OpRelax towards =>
      if isSubsetOf towards (v_base v) then
        match relax (v_current v) towards with
        | Changed d' _ =>
            Changed d' (if Domain_eqb d' (v_base v) then RESET else RELAXED)
        | r => r
        end
      else Failed NotASubset
  end.

(** Modelled from the spec: The validity state of a constraint (section 3). *)
Inductive Validity := Active | Deferred | Deleted.

(** Modelled from the spec: A propagation function reads the current domains
    of the scope and asks for operations on scope members, named by their
    position. *)
Definition CFunction : Type := list Domain -> list (nat * DomainOp).

(** Modelled from the spec: The attributes of a constraint (section 3): the
    kind it is an instance of, its ordered scope, its propagation function,
    its validity. *)
Record Constraint := mkConstraint {
  c_type : string;
  c_scope : list VarId;
  c_function : CFunction;
  c_validity : Validity
}.

(** Modelled from the spec: The attributes of a propagator (section 3): the
    constraint kinds it services and its agenda, oldest entry first. *)
Record Propagator := mkPropagator {
  p_types : list string;
  p_agenda : list ConstraintId
}.

(** Modelled from the spec: The consistency flag of the engine (section 3). *)
Inductive Consistency := Unknown | Consistent | Inconsistent.

(** Modelled from the spec: The engine; [ce_propagators] is in priority order,
    highest first. *)
Record ConstraintEngine := mkEngine {
  ce_variables : list ConstrainedVariable;
  ce_constraints : list Constraint;
  ce_propagators : list Propagator;
  ce_consistency : Consistency;
  ce_propagating : bool;
  ce_deferred : nat;
  ce_requested : bool
}.

(** The engine with one field replaced, one setter per field. *)
Definition with_variables (vs : list ConstrainedVariable)
    (e : ConstraintEngine) : ConstraintEngine :=
  {| ce_variables := vs; ce_constraints := ce_constraints e;
     ce_propagators := ce_propagators e; ce_consistency := ce_consistency e;
     ce_propagating := ce_propagating e; ce_deferred := ce_deferred e;
     ce_requested := ce_requested e |}.

Definition with_constraints (cs : list Constraint) (e : ConstraintEngine)
    : ConstraintEngine :=
  {| ce_variables := ce_variables e; ce_constraints := cs;
     ce_propagators := ce_propagators e; ce_consistency := ce_consistency e;
     ce_propagating := ce_propagating e; ce_deferred := ce_deferred e;
     ce_requested := ce_requested e |}.

Definition with_propagators (ps : list Propagator) (e : ConstraintEngine)
    : ConstraintEngine :=
  {| ce_variables := ce_variables e; ce_constraints := ce_constraints e;
     ce_propagators := ps; ce_consistency := ce_consistency e;
     ce_propagating := ce_propagating e; ce_deferred := ce_deferred e;
     ce_requested := ce_requested e |}.

Definition with_consistency (k : Consistency) (e : ConstraintEngine)
    : ConstraintEngine :=
  {| ce_variables := ce_variables e; ce_constraints := ce_constraints e;
     ce_propagators := ce_propagators e; ce_consistency := k;
     ce_propagating := ce_propagating e; ce_deferred := ce_deferred e;
     ce_requested := ce_requested e |}.

Definition with_propagating (b : bool) (e : ConstraintEngine)
    : ConstraintEngine :=
  {| ce_variables := ce_variables e; ce_constraints := ce_constraints e;
     ce_propagators := ce_propagators e; ce_consistency := ce_consistency e;
     ce_propagating := b; ce_deferred := ce_deferred e;
     ce_requested := ce_requested e |}.

Definition with_deferred (n : nat) (e : ConstraintEngine) : ConstraintEngine :=
  {| ce_variables := ce_variables e; ce_constraints := ce_constraints e;
     ce_propagators := ce_propagators e; ce_consistency := ce_consistency e;
     ce_propagating := ce_propagating e; ce_deferred := n;
     ce_requested := ce_requested e |}.

Definition with_requested (b : bool) (e : ConstraintEngine)
    : ConstraintEngine :=
  {| ce_variables := ce_variables e; ce_constraints := ce_constraints e;
     ce_propagators := ce_propagators e; ce_consistency := ce_consistency e;
     ce_propagating := ce_propagating e; ce_deferred := ce_deferred e;
     ce_requested := b |}.

(** An engine with the given propagators and nothing registered yet. *)
Definition empty_engine (ps : list (list string)) : ConstraintEngine :=
  {| ce_variables := []; ce_constraints := [];
     ce_propagators := map (fun ts => mkPropagator ts []) ps;
     ce_consistency := Unknown; ce_propagating := false;
     ce_deferred := 0%nat; ce_requested := false |}.

(** Equality test on the consistency flag. *)
Definition Consistency_eqb (a b : Consistency) : bool :=
  match a, b with
  | Unknown, Unknown | Consistent, Consistent
  | Inconsistent, Inconsistent => true
  | _, _ => false
  end.

(** Modelled from the spec: The current domain of a registered variable. *)
Definition current_domain (e : ConstraintEngine) (v : VarId) : option Domain :=
  v_current <$> ce_variables e !! v.

(** *** The agenda: FIFO, no duplicates *)

(** Modelled from the spec: Is the propagator responsible for constraints of
    this kind? *)
Definition services (type : string) (p : Propagator) : bool :=
  existsb (String.eqb type) (p_types p).

(** Modelled from the spec: Enqueue on one agenda: at the back, and not at
    all when the constraint is pending already (section 4.2). *)
Definition agenda_add (c : ConstraintId) (p : Propagator) : Propagator :=
  if existsb (Nat.eqb c) (p_agenda p) then p
  else mkPropagator (p_types p) (p_agenda p ++ [c]).

(** Modelled from the spec: Enqueue on the agenda of the propagator
    responsible for [type]. *)
Fixpoint enqueue (c : ConstraintId) (type : string) (ps : list Propagator)
    : list Propagator :=
  match ps with
  | [] => []
  | p :: ps' =>
      if services type p then agenda_add c p :: ps'
      else p :: enqueue c type ps'
  end.

(** Modelled from the spec: Activation of constraint [c]; only a live, Active
    constraint is put on an agenda. *)
Definition activate (c : ConstraintId) (e : ConstraintEngine)
    : ConstraintEngine :=
  match ce_constraints e !! c with
  | Some k =>
      match c_validity k with
      | Active => with_propagators (enqueue c (c_type k) (ce_propagators e)) e
      | _ => e
      end
  | None => e
  end.

(** Modelled from the spec: The listener of variable [v]: every referencing
    constraint is activated, but for the one that is executing right now. *)
Definition notify (executing : option ConstraintId) (v : VarId)
    (e : ConstraintEngine) : ConstraintEngine :=
  match ce_variables e !! v with
  | Some var =>
      fold_left
        (fun e' c =>
           match executing with
           | Some x => if Nat.eqb x c then e' else activate c e'
           | None => activate c e'
           end)
        (v_constraints var) e
  | None => e
  end.

(** Modelled from the spec: One operation on variable [v] through the engine:
    on a change the new domain is stored and the listener runs. *)
Definition mutate (executing : option ConstraintId) (v : VarId)
    (op : DomainOp) (e : ConstraintEngine)
    : ConstraintEngine * option DomainResult :=
  match ce_variables e !! v with
  | None => (e, None)
  | Some var =>
      match apply_op var op with
      | Changed d' ev =>
          (notify executing v
             (with_variables (<[v := with_current d' var]> (ce_variables e)) e),
           Some (Changed d' ev))
      | r => (e, Some r)
      end
  end.

(** Modelled from the spec: The event an operation emitted, if any. *)
Definition event_of (r : option DomainResult) : list DomainEvent :=
  match r with
  | Some (Changed _ ev) => [ev]
  | _ => []
  end.

(** Equality test on events. *)
Definition DomainEvent_eqb (a b : DomainEvent) : bool :=
  match a, b with
  | RESTRICTED, RESTRICTED | EMPTIED, EMPTIED
  | SET_TO_SINGLETON, SET_TO_SINGLETON | RELAXED, RELAXED
  | RESET, RESET | CLOSED, CLOSED => true
  | _, _ => false
  end.

(** Modelled from the spec: Is an [EMPTIED] among the events? *)
Definition has_EMPTIED (evs : list DomainEvent) : bool :=
  existsb (DomainEvent_eqb EMPTIED) evs.

(** Modelled from the spec: The operations a propagation function asked for,
    in order; a position outside the scope names no variable and is passed
    over. The first [EMPTIED] ends the execution there and then. *)
Fixpoint exec_ops (c : ConstraintId) (scope : list VarId)
    (ops : list (nat * DomainOp)) (e : ConstraintEngine)
    : ConstraintEngine * list DomainEvent :=
  match ops with
  | [] => (e, [])
  | (pos, op) :: ops' =>
      match scope !! pos with
      | None => exec_ops c scope ops' e
      | Some v =>
          let '(e1, r) := mutate (Some c) v op e in
          if has_EMPTIED (event_of r) then (e1, event_of r)
          else
            let '(e2, evs) := exec_ops c scope ops' e1 in
            (e2, event_of r ++ evs)
      end
  end.

(** Modelled from the spec: The current domains of a scope; [None] if a member
    is not registered. *)
Definition scope_domains (e : ConstraintEngine) (scope : list VarId)
    : option (list Domain) :=
  mapM (current_domain e) scope.

(** Modelled from the spec: [propagate()] of constraint [c]; [None] when it is
    not to be run (Deferred, Deleted, unknown, or with a scope member
    missing). *)
Definition execute (c : ConstraintId) (e : ConstraintEngine)
    : option (ConstraintEngine * list DomainEvent) :=
  match ce_constraints e !! c with
  | Some k =>
      match c_validity k, scope_domains e (c_scope k) with
      | Active, Some ds => Some (exec_ops c (c_scope k) (c_function k ds) e)
      | _, _ => None
      end
  | None => None
  end.

(** Modelled from the spec: The head of the agenda of the first propagator, in
    priority order, whose agenda is not empty, and the propagators once it is
    popped. *)
Fixpoint pop_next (ps : list Propagator)
    : option (ConstraintId * list Propagator) :=
  match ps with
  | [] => None
  | p :: ps' =>
      match p_agenda p with
      | c :: rest => Some (c, mkPropagator (p_types p) rest :: ps')
      | [] =>
          match pop_next ps' with
          | Some (c, ps'') => Some (c, p :: ps'')
          | None => None
          end
      end
  end.

(** Modelled from the spec: [pending()]: is some agenda not empty? *)
Definition pending (e : ConstraintEngine) : bool :=
  match pop_next (ce_propagators e) with Some _ => true | None => false end.

(** One constraint execution as it is logged: which constraint, the events
    its operations emitted, and the engine as the execution left it. *)
Record Execution := mkExecution {
  ex_constraint : ConstraintId;
  ex_events : list DomainEvent;
  ex_after : ConstraintEngine
}.

(** Modelled from the spec: Step 3 of [propagate()]: drain the agendas, stop
    at the first emptied domain. Each round costs one unit of [fuel]; [None]
    when it runs out (a propagation function that keeps the agenda from
    draining). *)
Fixpoint propagate_loop (fuel : nat) (e : ConstraintEngine)
    : option (ConstraintEngine * list Execution) :=
  if Consistency_eqb (ce_consistency e) Inconsistent then Some (e, [])
  else
    match pop_next (ce_propagators e) with
    | None => Some (with_consistency Consistent e, [])
    | Some (c, ps) =>
        match fuel with
        | O => None
        | S fuel' =>
            let e1 := with_propagators ps e in
            match execute c e1 with
            | None => propagate_loop fuel' e1
            | Some (e2, evs) =>
                if has_EMPTIED evs then
                  Some (with_consistency Inconsistent e2,
                        [mkExecution c evs e2])
                else
                  match propagate_loop fuel' e2 with
                  | Some (e3, log) => Some (e3, mkExecution c evs e2 :: log)
                  | None => None
                  end
            end
        end
    end.

(** Modelled from the spec: How [propagate()] ends (section 4.4): refused as
    reentrant, postponed by an open batch, or run; [OutOfFuel] is the run
    the fuel did not suffice for. *)
Inductive PropagateResult :=
| Reentrant
| Postponed (e : ConstraintEngine)
| Propagated (e : ConstraintEngine) (log : list Execution)
| OutOfFuel.

(** Modelled from the spec: [propagate()], steps 1 to 4 of section 4.4. *)
Definition propagate (fuel : nat) (e : ConstraintEngine) : PropagateResult :=
  if ce_propagating e then Reentrant
  else if negb (Nat.eqb (ce_deferred e) 0) then
    Postponed (with_requested true e)
  else
    match propagate_loop fuel (with_propagating true e) with
    | Some (e', log) => Propagated (with_propagating false e') log
    | None => OutOfFuel
    end.

(** *** The inbound interface (section 6) *)

(** Modelled from the spec: A named constraint type: declared arity,
    expected domain kinds, propagation function (section 4.3). *)
Record ConstraintType := mkConstraintType {
  ct_name : string;
  ct_arity : nat;
  ct_kinds : list Kind;
  ct_function : CFunction
}.

(** Modelled from the spec: The model errors of constraint creation (section
    7). *)
Inductive ModelError := ArityMismatch | KindMismatch | DanglingScope.

(** Modelled from the spec: The kinds of the base domains of a scope; [None]
    when a member is not a registered variable. *)
Definition scope_kinds (e : ConstraintEngine) (scope : list VarId)
    : option (list Kind) :=
  mapM (fun v => (fun var => kind_of (v_base var)) <$> ce_variables e !! v)
       scope.

(** Modelled from the spec: Every scope member gets the constraint as a
    listener. *)
Definition listen (c : ConstraintId) (scope : list VarId)
    (vs : list ConstrainedVariable) : list ConstrainedVariable :=
  fold_left
    (fun vs' v =>
       match vs' !! v with
       | Some var => <[v := with_listener c var]> vs'
       | None => vs'
       end)
    scope vs.

(** Modelled from the spec: [createConstraint(typeName, scope)]: arity and
    kinds are validated here; the new constraint listens to its scope and is
    pending. *)
Definition createConstraint (t : ConstraintType) (scope : list VarId)
    (e : ConstraintEngine) : ConstraintEngine * ConstraintId + ModelError :=
  if negb (Nat.eqb (length scope) (ct_arity t)) then inr ArityMismatch
  else
    match scope_kinds e scope with
    | None => inr DanglingScope
    | Some ks =>
        if list_eqb Kind_eqb ks (ct_kinds t) then
          let c := length (ce_constraints e) in
          let k := mkConstraint (ct_name t) scope (ct_function t) Active in
          let e1 := with_constraints (ce_constraints e ++ [k]) e in
          let e2 := with_variables (listen c scope (ce_variables e1)) e1 in
          inl (with_consistency Unknown (activate c e2), c)
        else inr KindMismatch
    end.

(** Modelled from the spec: The consistency flag after a domain event seen
    outside propagation. *)
Definition after_event (ev : DomainEvent) (k : Consistency) : Consistency :=
  match ev with
  | EMPTIED => Inconsistent
  | RELAXED | RESET => Unknown
  | RESTRICTED | SET_TO_SINGLETON | CLOSED =>
      match k with Inconsistent => Inconsistent | _ => Unknown end
  end.

(** Modelled from the spec: Why an edit asked for by a caller is rejected
    (sections 6 and 7). *)
Inductive EditError :=
| NoSuchVariable
| NotSpecifiable
| OutOfBase
| Refused (err : DomainError)
| ReentrantPropagation.

(** Modelled from the spec: How an edit ends. *)
Inductive EditResult :=
| Edited (e : ConstraintEngine) (log : list Execution)
| Rejected (err : EditError)
| EditOutOfFuel.

(** Modelled from the spec: May a caller ask [op] of [var]? Pinning needs a
    specifiable variable; a restricting domain with no value of the base
    domain is out of base. *)
Definition admissible (var : ConstrainedVariable) (op : DomainOp)
    : option EditError :=
  match op with
  | OpRestrictToSingleton _ =>
      if v_specifiable var then None else Some NotSpecifiable
  | OpIntersect other =>
      if emptied (intersect (v_base var) other) then Some OutOfBase else None
  | OpRelax _ => None
  end.

(** Modelled from the spec: [restrict], [restrictToSingleton] and [relax] of
    the inbound interface: the operation on the variable, then the propagation
    it triggers. *)
Definition edit (fuel : nat) (v : VarId) (op : DomainOp)
    (e : ConstraintEngine) : EditResult :=
  match ce_variables e !! v with
  | None => Rejected NoSuchVariable
  | Some var =>
      match admissible var op with
      | Some err => Rejected err
      | None =>
          match mutate None v op e with
          | (e1, Some (Changed _ ev)) =>
              let e2 :=
                with_consistency (after_event ev (ce_consistency e1)) e1 in
              match propagate fuel e2 with
              | Reentrant => Rejected ReentrantPropagation
              | Postponed e3 => Edited e3 []
              | Propagated e3 log => Edited e3 log
              | OutOfFuel => EditOutOfFuel
              end
          | (_, Some (Failed err)) => Rejected (Refused err)
          | (_, _) => Edited e []
          end
      end
  end.

(** Modelled from the spec: [beginBatch()]: one more level of deferred
    propagation (section 4.4). *)
Definition beginBatch (e : ConstraintEngine) : ConstraintEngine :=
  with_deferred (S (ce_deferred e)) e.

(** Modelled from the spec: [endBatch()]: the counter reaching zero runs the
    one propagation that was asked for meanwhile. *)
Definition endBatch (fuel : nat) (e : ConstraintEngine) : PropagateResult :=
  match ce_deferred e with
  | O => Propagated e []
  | S O =>
      if ce_requested e then
        propagate fuel (with_requested false (with_deferred O e))
      else Propagated (with_deferred O e) []
  | S n => Propagated (with_deferred n e) []
  end.

(** Modelled from the spec: A sequence of external edits replayed in order; a
    rejected edit leaves the engine as it was. [None] when some propagation
    ran out of fuel. *)
Fixpoint replay (fuel : nat) (edits : list (VarId * DomainOp))
    (e : ConstraintEngine) : option (ConstraintEngine * list Execution) :=
  match edits with
  | [] => Some (e, [])
  | (v, op) :: rest =>
      match edit fuel v op e with
      | Edited e1 log1 =>
          match replay fuel rest e1 with
          | Some (e2, log2) => Some (e2, log1 ++ log2)
          | None => None
          end
      | Rejected _ => replay fuel rest e
      | EditOutOfFuel => None
      end
  end.

(** *** A run, said without the loop *)

(** Modelled from the spec: no propagator has a constraint pending. *)
Definition quiescent (ps : list Propagator) : Prop :=
  Forall (fun q => p_agenda q = []) ps.

(** Modelled from the spec: the order of evaluation of section 4.4, priority
    first and insertion order within a propagator.  [c] is next when it is
    at the head of the agenda of a propagator [p] before which, in priority
    order, every agenda is empty; [ps'] is what is left once [c] is taken
    off. *)
Definition next_in_order (ps : list Propagator) (c : ConstraintId)
    (ps' : list Propagator) : Prop :=
  exists before p after rest,
    ps = before ++ p :: after
    /\ quiescent before
    /\ p_agenda p = c :: rest
    /\ ps' = before ++ mkPropagator (p_types p) rest :: after.

(** Modelled from the spec: a run of step 3 of [propagate()] from engine
    [e], with the executions it logs and the engine it ends in.  Nothing is
    run on an inconsistent engine; with every agenda empty the engine is
    consistent; otherwise the constraint that is next in order is taken off
    its agenda and, unless it is not to be run, executed, and the first
    emptied domain ends the run. *)
Inductive loop_run
    : ConstraintEngine -> list Execution -> ConstraintEngine -> Prop :=
| run_inconsistent e :
    ce_consistency e = Inconsistent -> loop_run e [] e
| run_quiescent e :
    ce_consistency e <> Inconsistent ->
    quiescent (ce_propagators e) ->
    loop_run e [] (with_consistency Consistent e)
| run_passed_over e c ps log e' :
    ce_consistency e <> Inconsistent ->
    next_in_order (ce_propagators e) c ps ->
    execute c (with_propagators ps e) = None ->
    loop_run (with_propagators ps e) log e' ->
    loop_run e log e'
| run_emptied e c ps e2 evs :
    ce_consistency e <> Inconsistent ->
    next_in_order (ce_propagators e) c ps ->
    execute c (with_propagators ps e) = Some (e2, evs) ->
    has_EMPTIED evs = true ->
    loop_run e [mkExecution c evs e2] (with_consistency Inconsistent e2)
| run_executed e c ps e2 evs log e3 :
    ce_consistency e <> Inconsistent ->
    next_in_order (ce_propagators e) c ps ->
    execute c (with_propagators ps e) = Some (e2, evs) ->
    has_EMPTIED evs = false ->
    loop_run e2 log e3 ->
    loop_run e (mkExecution c evs e2 :: log) e3.

(** Pending constraints that are not to be run (Deferred, Deleted, a scope
    member gone) are taken off the agendas, in order, without trace in the
    log. *)
Inductive passes_over : ConstraintEngine -> ConstraintEngine -> Prop :=
| passes_none e : passes_over e e
| passes_one e c ps e' :
    ce_consistency e <> Inconsistent ->
    next_in_order (ce_propagators e) c ps ->
    execute c (with_propagators ps e) = None ->
    passes_over (with_propagators ps e) e' ->
    passes_over e e'.

(** Modelled from the spec: how a call of [propagate()] ends, steps 1 to 4
    of section 4.4, the loop being a run as above. *)
Inductive propagates : ConstraintEngine -> PropagateResult -> Prop :=
| propagates_reentrant e :
    ce_propagating e = true -> propagates e Reentrant
| propagates_postponed e :
    ce_propagating e = false -> ce_deferred e <> 0%nat ->
    propagates e (Postponed (with_requested true e))
| propagates_run e log e' :
    ce_propagating e = false -> ce_deferred e = 0%nat ->
    loop_run (with_propagating true e) log e' ->
    propagates e (Propagated (with_propagating false e') log).

(** How an edit ends when the propagation it triggered ended with [r]. *)
Definition edit_result (r : PropagateResult) : EditResult :=
  match r with
  | Reentrant => Rejected ReentrantPropagation
  | Postponed e3 => Edited e3 []
  | Propagated e3 log => Edited e3 log
  | OutOfFuel => EditOutOfFuel
  end.

(** Modelled from the spec: how an edit asked for by a caller ends (section
    6): rejected, without effect, or followed by a propagation. *)
Inductive edits_to (v : VarId) (op : DomainOp) (e : ConstraintEngine)
    : EditResult -> Prop :=
| edit_unknown :
    ce_variables e !! v = None -> edits_to v op e (Rejected NoSuchVariable)
| edit_inadmissible var err :
    ce_variables e !! v = Some var -> admissible var op = Some err ->
    edits_to v op e (Rejected err)
| edit_refused var e1 err :
    ce_variables e !! v = Some var -> admissible var op = None ->
    mutate None v op e = (e1, Some (Failed err)) ->
    edits_to v op e (Rejected (Refused err))
| edit_unchanged var e1 :
    ce_variables e !! v = Some var -> admissible var op = None ->
    mutate None v op e = (e1, Some Unchanged) ->
    edits_to v op e (Edited e [])
| edit_changed var e1 d' ev r :
    ce_variables e !! v = Some var -> admissible var op = None ->
    mutate None v op e = (e1, Some (Changed d' ev)) ->
    propagates (with_consistency (after_event ev (ce_consistency e1)) e1) r ->
    edits_to v op e (edit_result r).

(** Modelled from the spec: a sequence of external edits replayed in order,
    with the executions logged on the way; a rejected edit leaves the engine
    as it was. *)
Inductive replays
    : list (VarId * DomainOp) -> ConstraintEngine -> list Execution ->
      ConstraintEngine -> Prop :=
| replays_nil e : replays [] e [] e
| replays_edited v op rest e e1 log1 log2 e2 :
    edits_to v op e (Edited e1 log1) ->
    replays rest e1 log2 e2 ->
    replays ((v, op) :: rest) e (log1 ++ log2) e2
| replays_rejected v op rest e err log e2 :
    edits_to v op e (Rejected err) ->
    replays rest e log e2 ->
    replays ((v, op) :: rest) e log e2.

(** What of an execution an observer of the run sees. *)
Definition executions (log : list Execution)
    : list (ConstraintId * list DomainEvent) :=
  map (fun x => (ex_constraint x, ex_events x)) log.

(** *** Structural identity of two engines *)

(** What of a variable takes part in propagation: its two domains, whether
    it may be pinned, and who listens.  Name, owner and the internal flag
    are labels. *)
Definition var_core (v : ConstrainedVariable)
    : Domain * Domain * bool * list ConstraintId :=
  (v_current v, v_base v, v_specifiable v, v_constraints v).

(** Two engines agree on everything propagation reads or writes. *)
Definition same_structure (e1 e2 : ConstraintEngine) : Prop :=
  var_core <$> ce_variables e1 = var_core <$> ce_variables e2
  /\ ce_constraints e1 = ce_constraints e2
  /\ ce_propagators e1 = ce_propagators e2
  /\ ce_consistency e1 = ce_consistency e2
  /\ ce_propagating e1 = ce_propagating e2
  /\ ce_deferred e1 = ce_deferred e2
  /\ ce_requested e1 = ce_requested e2.

(** Two runs observed side by side: the same constraints executed in the
    same order with the same events, leaving structurally identical
    engines. *)
Definition execution_alike (x y : Execution) : Prop :=
  ex_constraint x = ex_constraint y
  /\ ex_events x = ex_events y
  /\ same_structure (ex_after x) (ex_after y).

(** Two logs alike entry by entry. *)
Definition log_alike (l1 l2 : list Execution) : Prop :=
  Forall2 execution_alike l1 l2.

(** Two runs of the loop or of a replay end alike. *)
Definition run_alike (r1 r2 : option (ConstraintEngine * list Execution))
    : Prop :=
  match r1, r2 with
  | Some (a, l1), Some (b, l2) => same_structure a b /\ log_alike l1 l2
  | None, None => True
  | _, _ => False
  end.

(** Two calls of [propagate()] end alike. *)
Definition propagate_alike (r1 r2 : PropagateResult) : Prop :=
  match r1, r2 with
  | Reentrant, Reentrant => True
  | Postponed a, Postponed b => same_structure a b
  | Propagated a l1, Propagated b l2 => same_structure a b /\ log_alike l1 l2
  | OutOfFuel, OutOfFuel => True
  | _, _ => False
  end.

(** Two edits end alike. *)
Definition edit_alike (r1 r2 : EditResult) : Prop :=
  match r1, r2 with
  | Edited a l1, Edited b l2 => same_structure a b /\ log_alike l1 l2
  | Rejected x, Rejected y => x = y
  | EditOutOfFuel, EditOutOfFuel => True
  | _, _ => False
  end.

(* --------------------------------------------------------------------- *)
(** ** IntervalIntTypeFactory.cc                                          *)
(* --------------------------------------------------------------------- *)

(** Modelled from the spec: the class hierarchy of the domains is absent
    (IntervalIntDomain.hh); with the closed sum of kinds of the
    specification, [dynamic_cast<const IntervalIntDomain*>(&baseDomain)]
    yields the object when its kind is IntervalInt and the null pointer
    ([None]) otherwise. *)
Definition dynamic_cast_IntervalIntDomain (baseDomain : Domain)
    : option Domain :=
  match baseDomain with
  | IntervalIntDomain _ _ => Some baseDomain
  | _ => None
  end.

(** Modelled from the spec: the constructor of [Variable<DomainType>] is in
    Variable.hh, which is absent.  Section 4.5: the new variable owns a copy
    of [baseDomain] as both its current and its base domain and is
    registered with the engine; its identity is its place in the arena. *)
Definition new_Variable (baseDomain : Domain) (internal canBeSpecified : bool)
    (name : string) (parent : option EntityId) (index : Z)
    : prog ConstraintEngine VarId :=
  fun g e =>
    let var :=
      {| v_current := baseDomain; v_base := baseDomain;
         v_internal := internal; v_specifiable := canBeSpecified;
         v_name := name; v_parent := parent; v_index := index;
         v_constraints := [] |} in
    Returned (length (ce_variables e)) g
             (with_variables (ce_variables e ++ [var]) e).

(** [id.isValid()]: the identity names a registered variable. *)
Definition isValid (id : VarId) : prog ConstraintEngine bool :=
  fun g e => Returned (bool_decide (is_Some (ce_variables e !! id))) g e.

Definition kind_check_msg : string :=
  "tried to create an IntervalIntDomain variable with a different kind of base domain".

(** The data members of the factory: the name held by [TypeFactory] and
    [m_baseDomain]. *)
Record IntervalIntTypeFactory := mkFactory {
  f_name : string;
  m_baseDomain : Domain
}.

Definition baseDomain (f : IntervalIntTypeFactory) : Domain := m_baseDomain f.

(** [IntervalIntTypeFactory::createVariable], lines 21-39.  The engine
    argument is the state being threaded; [tu] is the translation unit the
    function is compiled in: what [NULL] in the conditions of lines 31 and
    34 expands to before [check_error] turns them into strings, and
    [__FILE__].  Dereferencing the null pointer the cast may have produced,
    at line 33, has no defined behaviour.  [new] does not hand back a null
    pointer, so the condition of line 34 is [true]. *)
Definition createVariable (tu : TranslationUnit) (b : Build)
    (baseDomain : Domain) (internal canBeSpecified : bool) (name : string)
    (parent : option EntityId) (index : Z) : prog ConstraintEngine VarId :=
  let intervalIntDomain := dynamic_cast_IntervalIntDomain baseDomain in
  check_error b (site_expanded tu (mkUse "intervalIntDomain != NULL" 31))
    (ret (bool_decide (is_Some intervalIntDomain)))
    (WithMsg kind_check_msg) ;;
  let! variable :=
    match intervalIntDomain with
    | Some d => new_Variable d internal canBeSpecified name parent index
    | None => undefined
    end in
  check_error b (site_expanded tu (mkUse "variable != NULL" 34)) (ret true)
    (WithMsg
       (String.append
          "failed to create Variable for IntervalIntDomain with name '"
          (String.append name "'"))) ;;
  let id := variable in
  check_error b (site_expanded tu (mkUse "id.isValid()" 37)) (isValid id)
    NoArgs ;;
  ret id.

(** [IntervalIntTypeFactory::createValue], lines 47-50: [atoi] of the
    characters, converted to [edouble]. *)
Definition createValue {St} (value : string) : prog St edouble :=
  match atoi value with
  | Some v => ret (inject_Z v)
  | None => undefined
  end.

(** The [Error] the guard of line 31 builds: its condition is the text of
    the guard with [NULL] expanded. *)
Definition kind_check_error (tu : TranslationUnit) : Error :=
  Error_cmfl (tu_expand tu "intervalIntDomain != NULL") kind_check_msg
    (tu_file tu) 31.

(* --------------------------------------------------------------------- *)
(** ** Sample inputs                                                      *)
(* --------------------------------------------------------------------- *)

Definition statics_abort : ErrorStatics := mkStatics false false false.
Definition statics_throw : ErrorStatics := doThrowExceptions statics_abort.

(** The factory compiled by g++, whose [NULL] is [__null], and called with
    the name of the file alone. *)
Definition gxx_expand (text : string) : string :=
  if String.eqb text "intervalIntDomain != NULL" then
    "intervalIntDomain != __null"
  else if String.eqb text "variable != NULL" then "variable != __null"
  else text.

Definition gxx_unit : TranslationUnit :=
  mkUnit gxx_expand "IntervalIntTypeFactory.cc".

(** A translation unit in which no macro occurs in the conditions. *)
Definition plain_unit (file : string) : TranslationUnit :=
  mkUnit (fun text => text) file.

(** Two edits on [engine_overlap]: cut x down to [5,7], then pin y to 6. *)
Definition sample_edits : list (VarId * DomainOp) :=
  [(0%nat, OpIntersect (IntervalIntDomain 5 7));
   (1%nat, OpRestrictToSingleton (VNum (inject_Z 6)))].

(** Through the factory and [createConstraint], keeping the engine. *)
Definition add_variable (d : Domain) (name : string) (e : ConstraintEngine)
    : ConstraintEngine :=
  match
    createVariable gxx_unit Checked d false true name None 0 statics_throw e
  with
  | Returned _ _ e' => e'
  | _ => e
  end.

Definition add_constraint (t : ConstraintType) (scope : list VarId)
    (e : ConstraintEngine) : ConstraintEngine :=
  match createConstraint t scope e with
  | inl (e', _) => e'
  | inr _ => e
  end.

(** Equality of two integer variables: each is cut down to the other. *)
Definition eq_function : CFunction :=
  fun ds =>
    match ds with
    | [dx; dy] => [(0%nat, OpIntersect dy); (1%nat, OpIntersect dx)]
    | _ => []
    end.

Definition eq_type : ConstraintType :=
  mkConstraintType "eq" 2 [KIntervalInt; KIntervalInt] eq_function.

(** x in [1,3], y in [5,9], x = y posted twice: no value in common. *)
Definition engine_disjoint : ConstraintEngine :=
  add_constraint eq_type [1%nat; 0%nat]
    (add_constraint eq_type [0%nat; 1%nat]
       (add_variable (IntervalIntDomain 5 9) "y"
          (add_variable (IntervalIntDomain 1 3) "x"
             (empty_engine [["eq"]])))).

(** x in [1,10], y in [4,20], x = y. *)
Definition engine_overlap (xname yname : string) : ConstraintEngine :=
  add_constraint eq_type [0%nat; 1%nat]
    (add_variable (IntervalIntDomain 4 20) yname
       (add_variable (IntervalIntDomain 1 10) xname
          (empty_engine [["eq"]]))).

(* --------------------------------------------------------------------- *)
(** ** Error.hh : counting macro arguments                                *)
(* --------------------------------------------------------------------- *)

(** A preprocessor argument: text handed over by the caller, or one of the
    numerals the macro itself appends. *)
Inductive Token :=
| TArg (text : string)
| TNum (n : Z).

(** [_ARG3(_0, _1, _2, _3, ...)], line 44: the fourth argument. *)
Definition _ARG3 (args : list Token) : option Token := args !! 3%nat.

(** [NARG3(...)], line 45: [_ARG3(__VA_ARGS__, 3, 2, 1, 0)].  [args] is the
    list of comma separated arguments of the invocation, which has at least
    one entry (an invocation with nothing between the parentheses passes
    one empty argument). *)
Definition NARG3 (args : list Token) : option Token :=
  _ARG3 (args ++ [TNum 3; TNum 2; TNum 1; TNum 0]).

(* --------------------------------------------------------------------- *)
(** ** TestUtils.hh : EUROPA_runTest                                      *)
(* --------------------------------------------------------------------- *)

Section RunTest.

Context {St : Type}.

(** [IdTable::size], [IdTable::checkResult] and [Error::print] are declared
    elsewhere; the macro is embedded over whatever they do. *)
Variable IdTable_size : prog St Z.
Variable IdTable_checkResult : bool -> Z -> prog St unit.
Variable Error_print : Error -> prog St unit.

(** [EUROPA_runTest(test)], lines 10-19: the [try] block, and the handler
    [catch (Error err)], which takes the exception by value (one more copy)
    and prints it. *)
Definition EUROPA_runTest (test : prog St bool) : prog St unit :=
  fun g s =>
    match (let! id_count := IdTable_size in
           let! result := test in
           IdTable_checkResult result id_count) g s with
    | Thrown e g' s' => Error_print (Error_copy e) g' s'
    | r => r
    end.

End RunTest.

(* --------------------------------------------------------------------- *)
(** ** DebugMsg.hh : enabling messages, guarded statements                *)
(* --------------------------------------------------------------------- *)

(** [std::ios_base::iostate]: [goodbit] is zero; the three error bits have
    the values libstdc++ gives them. *)
Definition goodbit : Z := 0.
Definition badbit : Z := 1.
Definition eofbit : Z := 2.
Definition failbit : Z := 4.

(** [os.good()] of a stream whose [rdstate()] is [rd]. *)
Definition good (rd : Z) : bool := (rd =? 0)%Z.

(** The text [enable()] streams after the colon, lines 309-312, one piece
    per bit tested. *)
Definition state_text (rd bit : Z) (text : string) : string :=
  if (Z.land rd bit =? 0)%Z then "" else text.

Definition enable_msg (rd : Z) : string :=
  String.append "cannot enable debug message(s) without a good debug stream: "
    (String.append (state_text rd badbit " bad ")
       (String.append (state_text rd eofbit " eof ")
          (String.append (state_text rd failbit " fail ")
             (state_text rd goodbit " good???")))).

Definition enabled (dm : DebugMessage) : DebugMessage :=
  {| dm_file := dm_file dm; dm_line := dm_line dm;
     dm_marker := dm_marker dm; dm_enabled := true |}.

(** [enable()], lines 306-318.  The state threaded is the [rdstate()] of the
    stream [streamPtr()] points to. *)
Definition enable (b : Build) (dm : DebugMessage) : prog Z DebugMessage :=
  fun g rd =>
    (checkError b (mkSite "streamPtr()->good()" "DebugMsg.hh" 307)
       (fun g' rd' => Returned (good rd') g' rd')
       (WithMsg (enable_msg rd)) ;;
     ret (enabled dm)) g rd.

(** [isGood()], lines 368-370. *)
Definition isGood (rd : Z) : bool := good rd.

(** Modelled from the spec: the bodies of [DebugMessage::matches],
    [findMatchingMsgs] and [enableMatchingMsgs] are in DebugMsg.cc, which is
    absent.  Their declarations (lines 219-227, 344-366) give them a [file],
    "the originating file", next to the pattern "to match markers against",
    and [markerMatches] "exists solely to ensure the same method is always
    used to check for a match" (lines 403-407): a message matches when its
    file passes that test against [file] and its marker against the
    pattern. *)
Definition matches (dm : DebugMessage) (file pattern : string) : bool :=
  markerMatches (dm_file dm) file && markerMatches (getMarker dm) pattern.

(** Modelled from the spec: [findMatchingMsgs(file, pattern, matches)], "find
    all matching DebugMessages and appends them to matches parameter without
    emptying it first"; [allMsgs] is the list of all known messages. *)
Definition findMatchingMsgs (file pattern : string)
    (allMsgs found : list DebugMessage) : list DebugMessage :=
  found ++ filter (fun dm => matches dm file pattern = true) allMsgs.

(** Modelled from the spec: [enableMatchingMsgs(file, marker)], "enable
    matching debug messages", with the error of [enable()] "if a message
    would be enabled but no debug stream has been set"; the messages
    "created later", which it also covers, are left out. *)
Fixpoint enableMatchingMsgs (b : Build) (file marker : string)
    (allMsgs : list DebugMessage) : prog Z (list DebugMessage) :=
  match allMsgs with
  | [] => ret []
  | dm :: rest =>
      let! dm' := (if matches dm file marker then enable b dm else ret dm) in
      let! rest' := enableMatchingMsgs b file marker rest in
      ret (dm' :: rest')
  end.

(** [condDebugStmt(cond, marker, stmt)], lines 109-114, for the message
    [dm] the static pointer of the expansion refers to ([addMsg] is
    declared only): [&&] runs the condition only for an enabled message. *)
Definition condDebugStmt {St} (dm : DebugMessage) (cond : prog St bool)
    (stmt : prog St unit) : prog St unit :=
  if isEnabled dm then
    let! c := cond in
    if c then stmt else ret tt
  else ret tt.

(** [debugStmt(marker, stmt)], line 87. *)
Definition debugStmt {St} (dm : DebugMessage) (stmt : prog St unit)
    : prog St unit :=
  condDebugStmt dm (ret true) stmt.

(** [debugStmtLvl] and [condDebugStmtLvl], lines 94 and 121-123: the level
    is dropped. *)
Definition debugStmtLvl {St} (dm : DebugMessage) (level : Z)
    (stmt : prog St unit) : prog St unit :=
  condDebugStmt dm (ret true) stmt.

Definition condDebugStmtLvl {St} (dm : DebugMessage) (cond : prog St bool)
    (level : Z) (stmt : prog St unit) : prog St unit :=
  condDebugStmt dm cond stmt.

(* --------------------------------------------------------------------- *)
(** ** Decimal numerals, to feed createValue                              *)
(* --------------------------------------------------------------------- *)

Definition digit_char (d : Z) : ascii := ascii_of_nat (Z.to_nat (48 + d)).

(** The digits of [n], most significant first, put in front of [acc]. *)
Fixpoint numeral_aux (fuel : nat) (n : Z) (acc : string) : string :=
  match fuel with
  | O => acc
  | S fuel' =>
      let acc' := String (digit_char (n mod 10)) acc in
      if (n <? 10)%Z then acc' else numeral_aux fuel' (n / 10) acc'
  end.

(** The decimal numeral of a natural number. *)
Definition numeral (n : Z) : string :=
  numeral_aux (S (Z.to_nat (Z.log2 n))) n "".

(** The literal of an integer: a minus sign when negative, then the
    numeral of the magnitude. *)
Definition int_literal (z : Z) : string :=
  if (z <? 0)%Z then String "-" (numeral (- z)) else numeral z.

(* --------------------------------------------------------------------- *)
(** ** IntervalIntTypeFactory.cc : the constructors                       *)
(* --------------------------------------------------------------------- *)

(** [IntervalIntTypeFactory(name, baseDomain)], lines 16-19; the parameter
    is a [const IntervalIntDomain&], given here by its bounds. *)
Definition IntervalIntTypeFactory_new (name : string) (lb ub : Z)
    : IntervalIntTypeFactory :=
  {| f_name := name; m_baseDomain := IntervalIntDomain lb ub |}.

(* ===================================================================== *)
(** * Part II.  Properties                                                *)
(* ===================================================================== *)

(* --------------------------------------------------------------------- *)
(** ** Error: copies and comparison                                       *)
(* --------------------------------------------------------------------- *)

Section ErrorCopies.

Variables this err : Error.

Lemma copy_fields :
  getCondition (Error_copy err) = getCondition err
  /\ getMsg (Error_copy err) = getMsg err
  /\ getFile (Error_copy err) = getFile err
  /\ getLine (Error_copy err) = getLine err.
Proof. repeat split. Qed.

Lemma assign_fields :
  getCondition (Error_assign this err) = getCondition err
  /\ getMsg (Error_assign this err) = getMsg err
  /\ getFile (Error_assign this err) = getFile err
  /\ getLine (Error_assign this err) = getLine err.
Proof. repeat split. Qed.

Lemma eq_ignores_type (t1 t2 : string) :
  Error_eq (setType this t1) (setType err t2) = Error_eq this err.
Proof. reflexivity. Qed.

End ErrorCopies.

(** C9, as stated, at a concrete input: a target whose type was set to
    ["Parse"] is assigned an error; the copy then reports ["Parse"], not
    ["Error"]. *)
Lemma assign_keeps_target_type_example :
  getType (Error_assign (setType (Error_of_msg "old") "Parse")
                        (setType (Error_of_msg "new") "Range"))
  <> "Error".
Proof. cbn. discriminate. Qed.

(** C9 (amended): a copy made by the copy constructor has type ["Error"]
    whatever the type of the original; an assignment leaves the type field
    of the target as it was before the assignment and takes nothing from
    the type of the right hand side; both copy condition, message, file and
    line; [operator==] does not look at the type. *)
Theorem copy_does_not_carry_type :
  forall this err : Error,
    getType (Error_copy err) = "Error"
    /\ getType (Error_assign this err) = getType this
    /\ (getCondition (Error_copy err) = getCondition err
        /\ getMsg (Error_copy err) = getMsg err
        /\ getFile (Error_copy err) = getFile err
        /\ getLine (Error_copy err) = getLine err)
    /\ (getCondition (Error_assign this err) = getCondition err
        /\ getMsg (Error_assign this err) = getMsg err
        /\ getFile (Error_assign this err) = getFile err
        /\ getLine (Error_assign this err) = getLine err)
    /\ (forall t1 t2 : string,
          Error_eq (setType this t1) (setType err t2) = Error_eq this err).
Proof.
  intros this err. split; [reflexivity|]. split; [reflexivity|].
  split; [apply copy_fields|]. split; [apply assign_fields|].
  apply eq_ignores_type.
Qed.

(* --------------------------------------------------------------------- *)
(** ** The check macros                                                   *)
(* --------------------------------------------------------------------- *)

Section Checks.

Context {St : Type}.
Variables (site : Site) (args : CheckArgs).

Lemma handleAssert_never_returns (A : Type) (e : Error) g (s : St) :
  ~ returns (@handleAssert St A e g s).
Proof.
  unfold handleAssert, throw, returns. intros (a & g' & s' & H).
  destruct (throwEnabled g); discriminate.
Qed.

Lemma EUROPA_ERROR_throw (A : Type) (e : Error) g (s : St) :
  throwEnabled g = true ->
  @EUROPA_ERROR St A e g s = Thrown (Error_copy e) g s.
Proof. unfold EUROPA_ERROR, throw. intros ->. reflexivity. Qed.

Lemma EUROPA_ERROR_abort (A : Type) (e : Error) g (s : St) :
  throwEnabled g = false ->
  @EUROPA_ERROR St A e g s = handleAssert e g s
  /\ @EUROPA_ERROR St A e g s = Aborted e.
Proof. unfold EUROPA_ERROR, handleAssert. intros ->. split; reflexivity. Qed.

Lemma check_body_passes (cond : prog St bool) g s g' s' :
  cond g s = Returned true g' s' ->
  check_body site cond args g s = Returned tt g' s'.
Proof. unfold check_body, bind. intros ->. reflexivity. Qed.

Lemma check_body_fails (cond : prog St bool) g s g' s' :
  cond g s = Returned false g' s' ->
  check_body site cond args g s = EUROPA_ERROR (site_error site args) g' s'.
Proof. unfold check_body, bind. intros ->. reflexivity. Qed.

(** A macro that is compiled in is [check_body]. *)
Lemma run_check_active (b : Build) (m : CheckMacro) (cond : prog St bool) :
  (b = Fast -> m = M_check_runtime_error) ->
  run_check m b site cond args = check_body site cond args.
Proof.
  intros H. destruct m, b; try reflexivity; specialize (H eq_refl);
    discriminate.
Qed.

End Checks.

Lemma throws_not_aborts {St A} (r : outcome St A) (e e' : Error) :
  throws r e -> ~ aborts r e'.
Proof. intros (g & s & ->) H. discriminate H. Qed.

(** The copy in flight compares equal to the original and has the default
    type. *)
Lemma Error_eq_copy (e : Error) :
  Error_eq (Error_copy e) e = true /\ getType (Error_copy e) = "Error".
Proof.
  split; [|reflexivity]. unfold Error_eq, Error_copy. cbn.
  by rewrite !String.eqb_refl, Z.eqb_refl.
Qed.

(** C3: a check that is compiled in and whose condition evaluates to false
    ends in exactly one of two ways, chosen by [Error::throwEnabled()]: the
    [Error] built from the call site is thrown (the exception object being
    the copy C++ makes of it, equal to it under [operator==]), or
    [handleAssert] is called, which does not return and, throwing being
    off, aborts.  [doThrowExceptions] and [doNotThrowExceptions] set the
    mode. *)
Theorem failed_check_throws_or_aborts :
  forall (St : Type) (b : Build) (m : CheckMacro) (site : Site)
         (args : CheckArgs) (cond : prog St bool) g s g' s',
    (b = Fast -> m = M_check_runtime_error) ->
    cond g s = Returned false g' s' ->
    let r := run_check m b site cond args g s in
    let e := site_error site args in
    (throwEnabled g' = true ->
     r = Thrown (Error_copy e) g' s' /\ Error_eq (Error_copy e) e = true)
    /\ (throwEnabled g' = false ->
        r = handleAssert e g' s' /\ aborts r e
        /\ ~ returns (@handleAssert St unit e g' s'))
    /\ ((throws r (Error_copy e) /\ ~ aborts r e /\ throwEnabled g' = true)
        \/ (aborts r e /\ ~ throws r (Error_copy e)
            /\ throwEnabled g' = false))
    /\ throwEnabled (doThrowExceptions g') = true
    /\ throwEnabled (doNotThrowExceptions g') = false.
Proof.
  intros St b m site args cond g s g' s' Hact Hc r e. subst r e.
  rewrite (run_check_active site args b m cond Hact).
  rewrite (check_body_fails site args cond g s g' s' Hc).
  split.
  { intros Hon. split; [by apply EUROPA_ERROR_throw | apply Error_eq_copy]. }
  split.
  { intros Hoff. destruct (EUROPA_ERROR_abort unit (site_error site args)
                             g' s' Hoff) as [H1 H2].
    split; [exact H1|]. split; [exact H2|]. apply handleAssert_never_returns. }
  split; [|split; reflexivity].
  destruct (throwEnabled g') eqn:Hmode.
  - left. rewrite (EUROPA_ERROR_throw unit _ g' s' Hmode).
    split; [eexists _, _; reflexivity|]. split; [|reflexivity].
    intros H; discriminate H.
  - right. destruct (EUROPA_ERROR_abort unit (site_error site args)
                       g' s' Hmode) as [_ H2].
    rewrite H2. split; [reflexivity|]. split; [|reflexivity].
    intros (g2 & s2 & H); discriminate H.
Qed.

Lemma failed_check_throws_or_aborts_witness :
  check_error Checked (mkSite "x > 0" "a.cc" 7) (ret false) (WithMsg "bad")
    statics_throw tt
  = Thrown (Error_cmfl "x > 0" "bad" "a.cc" 7) statics_throw tt.
Proof.
  pose proof (failed_check_throws_or_aborts unit Checked M_check_error
                (mkSite "x > 0" "a.cc" 7) (WithMsg "bad") (ret false)
                statics_throw tt statics_throw tt) as H.
  cbv zeta in H.
  destruct H as [H _]; [discriminate | reflexivity |].
  apply H. reflexivity.
Defined.

(* --------------------------------------------------------------------- *)
(** ** createVariable and the kind of the base domain                     *)
(* --------------------------------------------------------------------- *)

Section CreateVariable.

Variables (tu : TranslationUnit) (internal canBeSpecified : bool)
          (name : string) (parent : option EntityId) (index : Z).

Lemma cast_is_kind_test (d : Domain) :
  is_Some (dynamic_cast_IntervalIntDomain d) <-> kind_of d = KIntervalInt.
Proof.
  destruct d; cbn; split; intros H;
    try reflexivity; try discriminate; try (by eexists);
    by destruct H.
Qed.

Lemma cast_fails (d : Domain) :
  kind_of d <> KIntervalInt -> dynamic_cast_IntervalIntDomain d = None.
Proof. destruct d; cbn; intros H; try reflexivity. by destruct H. Qed.

(** Without [EUROPA_FAST] the guard of line 31 stops the call. *)
Lemma createVariable_checked_wrong_kind (d : Domain) g e :
  kind_of d <> KIntervalInt ->
  createVariable tu Checked d internal canBeSpecified name parent index g e
  = EUROPA_ERROR (kind_check_error tu) g e.
Proof.
  intros H. unfold createVariable. rewrite (cast_fails d H).
  unfold check_error, check_body, bind, ret. cbn.
  unfold EUROPA_ERROR, handleAssert, throw.
  destruct (throwEnabled g); reflexivity.
Qed.

(** With [EUROPA_FAST] the guard is gone and line 33 dereferences the
    null pointer. *)
Lemma createVariable_fast_wrong_kind (d : Domain) g e :
  kind_of d <> KIntervalInt ->
  createVariable tu Fast d internal canBeSpecified name parent index g e
  = Undefined.
Proof.
  intros H. unfold createVariable. rewrite (cast_fails d H). reflexivity.
Qed.

(** On an IntervalInt base domain every guard passes, in both builds. *)
Lemma createVariable_right_kind (b : Build) (lb ub : Z) g e :
  createVariable tu b (IntervalIntDomain lb ub) internal canBeSpecified name
    parent index g e
  = new_Variable (IntervalIntDomain lb ub) internal canBeSpecified name
      parent index g e.
Proof.
  unfold createVariable, new_Variable. cbn.
  destruct b; unfold check_error, check_body, bind, ret, isValid; cbn.
  - rewrite bool_decide_eq_true_2; [reflexivity|].
    apply lookup_lt_is_Some. rewrite length_app. cbn. lia.
  - reflexivity.
Qed.

End CreateVariable.

Lemma Undefined_raises_nothing {St A} (err : Error) :
  ~ raises (@Undefined St A) err.
Proof. intros [(g & s & H)|H]; discriminate H. Qed.

(** C8, as stated, at a concrete input: [check_runtime_error] is not the
    only check left in a build with [EUROPA_FAST].  [checkRuntimeError],
    [assertTrue] and [assertFalse] are defined outside the [#ifdef] too, and
    throw there on a condition that fails. *)
Lemma fast_build_keeps_other_checks :
  @checkRuntimeError unit Fast (mkSite "ready" "t.cc" 7) (ret false)
    "not ready" statics_throw tt
  = Thrown (Error_cmfl "ready" "not ready" "t.cc" 7) statics_throw tt
  /\ @assertTrue unit (mkSite "ready" "t.cc" 8) (ret 0) NoArgs
       statics_throw tt
     = Thrown (Error_cfl "ready" "t.cc" 8) statics_throw tt
  /\ @assertFalse unit (mkSite "busy" "t.cc" 9) (ret 1) NoArgs
       statics_throw tt
     = Thrown (Error_cfl "busy" "t.cc" 9) statics_throw tt.
Proof. repeat split. Qed.

(** C8 (amended): with [EUROPA_FAST] defined, [check_error] and
    [checkError] are the empty statement whatever their condition would do
    (it is not run, no error is raised), so the kind guard of
    [createVariable] detects nothing there.  The checks defined outside the
    [#ifdef] stay as they are: [check_runtime_error] and
    [checkRuntimeError] still run their condition and raise the error of the
    call site exactly when it is false, [assertTrue] raises exactly when its
    condition is zero and [assertFalse] exactly when it is one. *)
Theorem fast_build_drops_check_error :
  forall (St : Type) (site : Site) (args : CheckArgs) (cond : prog St bool),
    check_error Fast site cond args = ret tt
    /\ checkError Fast site cond args = ret tt
    /\ (forall g s c g' s',
          cond g s = Returned c g' s' ->
          (c = false <->
           raises (check_runtime_error Fast site cond args g s)
                  (site_error site args))
          /\ (c = true ->
              check_runtime_error Fast site cond args g s = Returned tt g' s'))
    /\ (forall tu d internal canBeSpecified name parent index g e,
          kind_of d <> KIntervalInt ->
          createVariable tu Fast d internal canBeSpecified name parent index
            g e
          = Undefined
          /\ forall err,
               ~ raises (createVariable tu Fast d internal canBeSpecified
                           name parent index g e) err)
    /\ (forall msg g s c g' s',
          cond g s = Returned c g' s' ->
          (c = false <->
           raises (checkRuntimeError Fast site cond msg g s)
                  (site_error site (WithMsg msg)))
          /\ (c = true ->
              checkRuntimeError Fast site cond msg g s = Returned tt g' s'))
    /\ (forall (icond : prog St Z) g s c g' s',
          icond g s = Returned c g' s' ->
          (c = 0 <->
           raises (assertTrue site icond args g s) (site_error site args))
          /\ (c = 1 <->
              raises (assertFalse site icond args g s)
                     (site_error site args))).
Proof.
  intros St site args cond. split; [reflexivity|]. split; [reflexivity|].
  split; [|split; [|split]].
  - intros g s c g' s' Hc. unfold check_runtime_error. split.
    + split.
      * intros ->. rewrite (check_body_fails site args cond g s g' s' Hc).
        unfold EUROPA_ERROR, handleAssert, throw, raises, throws, aborts.
        destruct (throwEnabled g'); [left; eexists _, _; reflexivity|].
        right; reflexivity.
      * destruct c; [|reflexivity].
        rewrite (check_body_passes site args cond g s g' s' Hc).
        intros [(g2 & s2 & H)|H]; discriminate H.
    + intros ->. apply (check_body_passes site args cond g s g' s' Hc).
  - intros tu d internal canBeSpecified name parent index g e Hk.
    rewrite createVariable_fast_wrong_kind by exact Hk.
    split; [reflexivity|]. intros err. apply Undefined_raises_nothing.
  - intros msg g s c g' s' Hc. unfold checkRuntimeError, bind. rewrite Hc.
    destruct c; cbn.
    + split; [|reflexivity].
      split; [discriminate|]. intros [(g2 & s2 & H)|H]; discriminate H.
    + split; [|discriminate]. split; [|reflexivity]. intros _.
      unfold handleAssert, throw, raises, throws, aborts.
      destruct (throwEnabled g'); [left; eexists _, _; reflexivity|].
      right; reflexivity.
  - intros icond g s c g' s' Hc.
    unfold assertTrue, assertFalse, assert_, bind. rewrite Hc. cbn.
    split.
    + destruct (Z.eqb_spec c 0) as [E | E].
      * split; [|intros _; exact E]. intros _.
        unfold EUROPA_ERROR, handleAssert, throw, raises, throws, aborts.
        destruct (throwEnabled g'); [left; eexists _, _; reflexivity|].
        right; reflexivity.
      * split; [intros H; contradiction|].
        intros [(g2 & s2 & H)|H]; discriminate H.
    + destruct (Z.eqb_spec c 1) as [E | E].
      * split; [|intros _; exact E]. intros _.
        unfold EUROPA_ERROR, handleAssert, throw, raises, throws, aborts.
        destruct (throwEnabled g'); [left; eexists _, _; reflexivity|].
        right; reflexivity.
      * split; [intros H; contradiction|].
        intros [(g2 & s2 & H)|H]; discriminate H.
Qed.

Lemma fast_build_drops_check_error_witness :
  createVariable gxx_unit Fast (BoolDomain [true; false]) false true "flag"
    None 0 statics_throw (empty_engine [])
  = Undefined.
Proof.
  destruct (fast_build_drops_check_error unit (mkSite "c" "f" 1) NoArgs
              (ret false)) as (_ & _ & _ & H & _).
  apply (H gxx_unit (BoolDomain [true; false]) false true "flag" None 0%Z
           statics_throw (empty_engine [])).
  discriminate.
Defined.

(** C2, as stated, at a concrete input: built with [EUROPA_FAST], a Bool
    base domain raises no error at all. *)
Lemma createVariable_fast_no_mismatch_error :
  kind_of (BoolDomain [true; false]) <> KIntervalInt
  /\ forall err,
       ~ raises (createVariable gxx_unit Fast (BoolDomain [true; false])
                   false true "flag" None 0 statics_throw (empty_engine []))
                err.
Proof.
  split; [discriminate|]. intros err.
  rewrite createVariable_fast_wrong_kind by discriminate.
  apply Undefined_raises_nothing.
Qed.

(** C2 (amended): in a build without [EUROPA_FAST], for every base domain
    whose kind is not IntervalInt, [createVariable] raises the error of the
    guard of line 31 at the call: thrown with the engine exactly as it was
    (no variable constructed or registered) when throwing is enabled, the
    process aborted otherwise.  The error carries the message of the guard;
    its condition is the text of the guard as the preprocessor expands it
    and its file what the preprocessor puts for [__FILE__], whatever these
    are. *)
Theorem createVariable_rejects_other_kinds :
  forall (tu : TranslationUnit) (d : Domain) (internal canBeSpecified : bool)
         (name : string) (parent : option EntityId) (index : Z) g e,
    kind_of d <> KIntervalInt ->
    let r := createVariable tu Checked d internal canBeSpecified name parent
               index g e in
    (throwEnabled g = true -> r = Thrown (kind_check_error tu) g e)
    /\ (throwEnabled g = false -> r = Aborted (kind_check_error tu))
    /\ raises r (kind_check_error tu)
    /\ ~ returns r
    /\ getMsg (kind_check_error tu) = kind_check_msg
    /\ getCondition (kind_check_error tu)
       = tu_expand tu "intervalIntDomain != NULL"
    /\ getFile (kind_check_error tu) = tu_file tu
    /\ getLine (kind_check_error tu) = 31.
Proof.
  intros tu d internal canBeSpecified name parent index g e Hk r. subst r.
  rewrite createVariable_checked_wrong_kind by exact Hk.
  unfold EUROPA_ERROR, handleAssert, throw, raises, throws, aborts, returns.
  destruct (throwEnabled g); repeat split; try discriminate; try reflexivity.
  - left. eexists _, _. reflexivity.
  - intros (a & g2 & s2 & H). discriminate H.
  - right. reflexivity.
  - intros (a & g2 & s2 & H). discriminate H.
Qed.

Lemma createVariable_rejects_other_kinds_witness :
  createVariable gxx_unit Checked (BoolDomain [true; false]) false true
    "flag" None 0 statics_throw (empty_engine [])
  = Thrown
      (Error_cmfl "intervalIntDomain != __null" kind_check_msg
         "IntervalIntTypeFactory.cc" 31)
      statics_throw (empty_engine []).
Proof.
  destruct (createVariable_rejects_other_kinds gxx_unit
              (BoolDomain [true; false]) false true "flag" None 0
              statics_throw (empty_engine []))
    as (H & _); [discriminate|].
  exact (H eq_refl).
Defined.

(** C7: for every base domain of kind IntervalInt, in either build and
    either error mode, [createVariable] returns; the identity it returns
    was not in use, names a variable of the engine afterwards, and that
    variable holds the base domain given as both its current and its base
    domain, with the flags, name, owner and index given; whatever was
    registered before is still there and nothing else of the engine
    moved. *)
Theorem createVariable_registers_variable :
  forall (tu : TranslationUnit) (b : Build) (d : Domain)
         (internal canBeSpecified : bool) (name : string)
         (parent : option EntityId) (index : Z) g e,
    kind_of d = KIntervalInt ->
    exists id e' var,
      createVariable tu b d internal canBeSpecified name parent index g e
      = Returned id g e'
      /\ ce_variables e !! id = None
      /\ ce_variables e' !! id = Some var
      /\ v_current var = d /\ v_base var = d
      /\ v_internal var = internal /\ v_specifiable var = canBeSpecified
      /\ v_name var = name /\ v_parent var = parent /\ v_index var = index
      /\ v_constraints var = []
      /\ (forall j w, ce_variables e !! j = Some w ->
                      ce_variables e' !! j = Some w)
      /\ with_variables (ce_variables e) e' = e.
Proof.
  intros tu b d internal canBeSpecified name parent index g e Hk.
  destruct d as [| lb ub | | |]; try discriminate Hk.
  rewrite createVariable_right_kind. unfold new_Variable.
  eexists _, _, _. split; [reflexivity|]. cbn.
  split; [apply lookup_ge_None_2; lia|].
  split.
  { rewrite lookup_app_r by lia. rewrite Nat.sub_diag. reflexivity. }
  repeat (split; [reflexivity|]).
  split.
  - intros j w Hj. rewrite lookup_app_l; [exact Hj|].
    eapply lookup_lt_Some; exact Hj.
  - destruct e; reflexivity.
Qed.

Lemma createVariable_registers_variable_witness :
  exists id e' var,
    createVariable gxx_unit Fast (IntervalIntDomain 1 10) false true "x"
      None 0 statics_abort (empty_engine [])
    = Returned id statics_abort e'
    /\ ce_variables e' !! id = Some var
    /\ v_current var = IntervalIntDomain 1 10
    /\ v_base var = IntervalIntDomain 1 10.
Proof.
  destruct (createVariable_registers_variable gxx_unit Fast
              (IntervalIntDomain 1 10) false true "x" None 0 statics_abort
              (empty_engine []))
    as (id & e' & var & H1 & _ & H3 & H4 & H5 & _); [reflexivity|].
  exists id, e', var. repeat split; assumption.
Defined.

(* --------------------------------------------------------------------- *)
(** ** DebugMessage: marker matching                                      *)
(* --------------------------------------------------------------------- *)

Lemma length_cons (c : ascii) (s : string) :
  length_ (String c s) = 1 + length_ s.
Proof. unfold length_. cbn [String.length]. lia. Qed.

Lemma length_nonneg (s : string) : 0 <= length_ s.
Proof. unfold length_. lia. Qed.

Lemma length_zero (s : string) : length_ s = 0 -> s = "".
Proof.
  destruct s; [reflexivity|]. rewrite length_cons.
  pose proof (length_nonneg s). lia.
Qed.

Lemma starts_with_spec (p s : string) :
  starts_with p s = true <-> exists post, s = String.append p post.
Proof.
  revert s. induction p as [|a p IH]; intros s; cbn.
  - split; [intros _; by exists s | reflexivity].
  - destruct s as [|b s].
    + split; [discriminate | intros (post & H); discriminate H].
    + rewrite andb_true_iff, Ascii.eqb_eq, IH. split.
      * intros (-> & post & ->). by exists post.
      * intros (post & H). injection H as -> ->. split; [reflexivity|].
        by exists post.
Qed.

Lemma starts_with_length (p s : string) :
  starts_with p s = true -> length_ p <= length_ s.
Proof.
  revert s. induction p as [|a p IH]; intros s; cbn.
  - intros _. apply length_nonneg.
  - destruct s as [|b s]; [discriminate|].
    rewrite andb_true_iff. intros (_ & H). apply IH in H.
    rewrite !length_cons. lia.
Qed.

Lemma substring_of_nil (p : string) :
  substring_of p "" <-> starts_with p "" = true.
Proof.
  split.
  - intros (pre & post & H). destruct pre; [|discriminate H].
    cbn in H. apply starts_with_spec. by exists post.
  - intros H. apply starts_with_spec in H as (post & H).
    by exists "", post.
Qed.

Lemma substring_of_cons (p : string) (c : ascii) (s : string) :
  substring_of p (String c s)
  <-> starts_with p (String c s) = true \/ substring_of p s.
Proof.
  split.
  - intros (pre & post & H). destruct pre as [|a pre].
    + left. apply starts_with_spec. by exists post.
    + right. cbn in H. injection H as _ ->. by exists pre, post.
  - intros [H | (pre & post & ->)].
    + apply starts_with_spec in H as (post & H). by exists "", post.
    + by exists (String c pre), post.
Qed.

Lemma find_from_found (s p : string) (pos : Z) :
  substring_of p s ->
  pos <= find_from pos s p <= pos + length_ s - length_ p.
Proof.
  revert pos. induction s as [|c s IH]; intros pos Hsub; cbn [find_from].
  - apply substring_of_nil in Hsub. rewrite Hsub.
    apply starts_with_length in Hsub. lia.
  - destruct (starts_with p (String c s)) eqn:Hst.
    + apply starts_with_length in Hst. lia.
    + apply substring_of_cons in Hsub as [Hsub | Hsub]; [congruence|].
      specialize (IH (pos + 1) Hsub). rewrite length_cons. lia.
Qed.

Lemma find_from_not_found (s p : string) (pos : Z) :
  ~ substring_of p s -> find_from pos s p = npos.
Proof.
  revert pos. induction s as [|c s IH]; intros pos Hsub; cbn [find_from].
  - destruct (starts_with p "") eqn:Hst; [|reflexivity].
    destruct Hsub. by apply substring_of_nil.
  - destruct (starts_with p (String c s)) eqn:Hst.
    + destruct Hsub. apply substring_of_cons. by left.
    + apply IH. intros H. apply Hsub. apply substring_of_cons. by right.
Qed.

Lemma substring_of_length (p m : string) :
  substring_of p m -> length_ p <= length_ m.
Proof.
  intros H. pose proof (find_from_found m p 0 H). lia.
Qed.

Lemma find_from_hit (s p : string) (pos : Z) :
  find_from pos s p <> npos -> substring_of p s.
Proof.
  revert pos. induction s as [|c s IH]; intros pos H; cbn [find_from] in H.
  - destruct (starts_with p "") eqn:Hst; [|congruence].
    by apply substring_of_nil.
  - apply substring_of_cons.
    destruct (starts_with p (String c s)) eqn:Hst; [by left|].
    right. by apply (IH (pos + 1)).
Qed.

Lemma markerMatches_iff (marker pattern : string) :
  length_ marker < npos ->
  markerMatches marker pattern = true <-> substring_of pattern marker.
Proof.
  intros Hmax. unfold markerMatches.
  destruct (Z.ltb_spec (length_ pattern) 1) as [Hp | Hp].
  - split; [intros _ | reflexivity].
    rewrite (length_zero pattern) by (pose proof (length_nonneg pattern); lia).
    by exists "", marker.
  - destruct (Z.ltb_spec (length_ marker) (length_ pattern)) as [Hm | Hm].
    + split; [discriminate|]. intros H%substring_of_length. lia.
    + unfold find. rewrite Z.ltb_lt. split.
      * intros Hf. apply (find_from_hit marker pattern 0). lia.
      * intros Hsub. pose proof (find_from_found marker pattern 0 Hsub). lia.
Qed.

Lemma markerMatches_empty_pattern (marker : string) :
  markerMatches marker "" = true.
Proof. reflexivity. Qed.

Lemma matches_empty_pattern (dm : DebugMessage) (file : string) :
  matches dm file "" = markerMatches (dm_file dm) file.
Proof.
  unfold matches. rewrite markerMatches_empty_pattern. apply andb_true_r.
Qed.

Lemma matches_empty_file_and_pattern (dm : DebugMessage) :
  matches dm "" "" = true.
Proof. reflexivity. Qed.

Lemma findMatchingMsgs_empty_pattern (file : string)
    (allMsgs found : list DebugMessage) :
  findMatchingMsgs file "" allMsgs found
  = found ++ filter (fun dm => markerMatches (dm_file dm) file = true) allMsgs.
Proof.
  unfold findMatchingMsgs. f_equal. apply list_filter_iff. intros dm.
  by rewrite matches_empty_pattern.
Qed.

Lemma findMatchingMsgs_empty_file_and_pattern
    (allMsgs found : list DebugMessage) :
  findMatchingMsgs "" "" allMsgs found = found ++ allMsgs.
Proof.
  unfold findMatchingMsgs. f_equal.
  induction allMsgs as [|dm msgs IH]; [reflexivity|].
  rewrite filter_cons_True by apply matches_empty_file_and_pattern.
  by rewrite IH.
Qed.

Lemma enable_on_good_stream (b : Build) (dm : DebugMessage) g rd :
  good rd = true -> enable b dm g rd = Returned (enabled dm) g rd.
Proof.
  intros H. unfold enable, checkError, check_body, bind, ret.
  destruct b; [|reflexivity]. by rewrite H.
Qed.

Lemma enableMatchingMsgs_empty_pattern (b : Build) (file : string)
    (allMsgs : list DebugMessage) g rd :
  good rd = true ->
  enableMatchingMsgs b file "" allMsgs g rd
  = Returned
      (map (fun dm =>
              if markerMatches (dm_file dm) file then enabled dm else dm)
           allMsgs) g rd.
Proof.
  intros H. induction allMsgs as [|dm msgs IH]; [reflexivity|].
  cbn [enableMatchingMsgs map]. unfold bind at 1.
  rewrite matches_empty_pattern.
  destruct (markerMatches (dm_file dm) file).
  - rewrite (enable_on_good_stream b dm g rd H). unfold bind at 1.
    by rewrite IH.
  - unfold ret at 1. unfold bind at 1. by rewrite IH.
Qed.




(* --------------------------------------------------------------------- *)
(** ** createValue: what atoi reads                                       *)
(* --------------------------------------------------------------------- *)

Lemma append_cons (c : ascii) (s t : string) :
  String.append (String c s) t = String c (String.append s t).
Proof. reflexivity. Qed.

Lemma append_nil (t : string) : String.append "" t = t.
Proof. reflexivity. Qed.

Lemma skip_spaces_app (ws body : string) :
  all_spaces ws = true -> not_first isspace body = true ->
  skip_spaces (String.append ws body) = body.
Proof.
  intros Hws Hb. induction ws as [|c ws IH].
  - rewrite append_nil. destruct body as [|b body]; [reflexivity|].
    cbn [not_first] in Hb. apply negb_true_iff in Hb.
    cbn [skip_spaces]. by rewrite Hb.
  - cbn [all_spaces] in Hws. apply andb_true_iff in Hws as (Hc & Hws).
    rewrite append_cons. cbn [skip_spaces]. rewrite Hc. by apply IH.
Qed.

Lemma digits_value_stop (acc : Z) (rest : string) :
  not_first isdigit rest = true -> digits_value acc rest = acc.
Proof.
  destruct rest as [|c rest]; cbn [not_first digits_value]; [reflexivity|].
  intros H%negb_true_iff. by rewrite H.
Qed.

Lemma digits_value_app (ds rest : string) (acc : Z) :
  all_digits ds = true -> not_first isdigit rest = true ->
  digits_value acc (String.append ds rest)
  = acc * 10 ^ length_ ds + decimal ds.
Proof.
  intros Hds Hrest. revert acc.
  induction ds as [|c ds IH]; intros acc.
  - rewrite append_nil, digits_value_stop by exact Hrest.
    change (length_ "") with 0. cbn [decimal]. rewrite Z.pow_0_r. lia.
  - cbn [all_digits] in Hds. apply andb_true_iff in Hds as (Hc & Hds).
    rewrite append_cons. cbn [digits_value decimal]. rewrite Hc.
    rewrite (IH Hds). rewrite length_cons.
    rewrite Z.pow_add_r by (pose proof (length_nonneg ds); lia). lia.
Qed.

Lemma digit_not_sign (c : ascii) : isdigit c = true -> is_sign c = false.
Proof.
  unfold isdigit, is_sign. intros H.
  destruct (Ascii.eqb_spec c "+") as [-> | _]; [discriminate H|].
  destruct (Ascii.eqb_spec c "-") as [-> | _]; [discriminate H|].
  reflexivity.
Qed.

Lemma strtol_value_parts (ws : string) (sg : Sign) (ds rest : string) :
  all_spaces ws = true ->
  all_digits ds = true ->
  not_first isdigit rest = true ->
  not_first isspace (String.append (sign_text sg) (String.append ds rest))
  = true ->
  (sg = NoSign -> not_first is_sign (String.append ds rest) = true) ->
  strtol_value
    (String.append ws (String.append (sign_text sg) (String.append ds rest)))
  = sign_factor sg * decimal ds.
Proof.
  intros Hws Hds Hrest Hbody Hsign. unfold strtol_value.
  rewrite skip_spaces_app by assumption.
  destruct sg; cbn [sign_text sign_factor].
  - specialize (Hsign eq_refl). rewrite append_nil.
    destruct (String.append ds rest) as [|c body] eqn:E.
    + destruct ds; [|discriminate E]. reflexivity.
    + cbn [not_first] in Hsign. apply negb_true_iff in Hsign.
      unfold is_sign in Hsign.
      apply orb_false_iff in Hsign as (Hplus & Hminus).
      rewrite Hminus, Hplus. rewrite <- E.
      rewrite digits_value_app by assumption. lia.
  - rewrite append_cons, append_nil. cbn [Ascii.eqb Bool.eqb].
    rewrite digits_value_app by assumption. lia.
  - rewrite append_cons, append_nil. cbn [Ascii.eqb Bool.eqb].
    rewrite digits_value_app by assumption. lia.
Qed.

Lemma createValue_no_error {St} (s : string) g (st : St) :
  is_error (createValue s g st) = false.
Proof. unfold createValue. destruct (atoi s); reflexivity. Qed.

Example atoi_prefix : atoi "12abc" = Some 12.
Proof. reflexivity. Qed.

Example atoi_signed : atoi "   +7" = Some 7 /\ atoi "-0042" = Some (-42).
Proof. split; reflexivity. Qed.

Example atoi_nothing : atoi "" = Some 0 /\ atoi "-" = Some 0
                       /\ atoi "+-3" = Some 0 /\ atoi "x9" = Some 0.
Proof. repeat split. Qed.

Example atoi_too_large : atoi "99999999999" = None.
Proof. reflexivity. Qed.

(** C1, as stated, at a concrete input: ["abc"] is no integer literal, and
    [createValue] returns 0 for it without raising anything. *)
Lemma createValue_malformed_returns_zero :
  well_formed_literal "abc" = false
  /\ @createValue unit "abc" statics_throw tt
     = Returned (inject_Z 0) statics_throw tt
  /\ is_error (@createValue unit "abc" statics_throw tt) = false.
Proof. repeat split. Qed.

(** C1 (amended): [createValue] raises no parse error on any string.  A
    string made of white space, an optional sign, digits and a rest that
    does not go on with a digit yields the signed base ten value of those
    digits, 0 when there are none, whenever an [int] can hold it; the rest
    of the string is ignored. *)
Theorem createValue_reads_leading_integer :
  forall (St : Type) g (st : St),
    (forall s : string, is_error (createValue s g st) = false)
    /\ (forall (ws : string) (sg : Sign) (ds rest : string),
          all_spaces ws = true ->
          all_digits ds = true ->
          not_first isdigit rest = true ->
          not_first isspace
            (String.append (sign_text sg) (String.append ds rest)) = true ->
          (sg = NoSign ->
           not_first is_sign (String.append ds rest) = true) ->
          INT_MIN <= sign_factor sg * decimal ds <= INT_MAX ->
          createValue
            (String.append ws
               (String.append (sign_text sg) (String.append ds rest))) g st
          = Returned (inject_Z (sign_factor sg * decimal ds)) g st).
Proof.
  intros St g st. split; [intros s; apply createValue_no_error|].
  intros ws sg ds rest Hws Hds Hrest Hbody Hsign Hrange.
  unfold createValue, atoi.
  rewrite strtol_value_parts by assumption.
  destruct (Z.leb_spec INT_MIN (sign_factor sg * decimal ds)); [|lia].
  destruct (Z.leb_spec (sign_factor sg * decimal ds) INT_MAX); [|lia].
  reflexivity.
Qed.

Lemma createValue_reads_leading_integer_witness :
  @createValue unit "  -12abc" statics_abort tt
  = Returned (inject_Z (-12)) statics_abort tt.
Proof.
  destruct (createValue_reads_leading_integer unit statics_abort tt)
    as (_ & H).
  refine (H "  " Minus "12" "abc" eq_refl eq_refl eq_refl eq_refl _ _).
  - discriminate.
  - vm_compute. split; discriminate.
Defined.

(* --------------------------------------------------------------------- *)
(** ** Domains: intersection with oneself and with a superset             *)
(* --------------------------------------------------------------------- *)

Section DomainAlgebra.

Local Open Scope Q_scope.

Lemma Qmax_keep (x y : Q) : y <= x -> Qmax x y = x.
Proof.
  intros H. unfold Qmax, GenericMinMax.gmax.
  destruct (x ?= y) eqn:E; try reflexivity.
  apply Qlt_alt in E. exfalso. eapply Qlt_not_le; eassumption.
Qed.

Lemma Qmin_keep (x y : Q) : x <= y -> Qmin x y = x.
Proof.
  intros H. unfold Qmin, GenericMinMax.gmin.
  destruct (x ?= y) eqn:E; try reflexivity.
  apply Qgt_alt in E. exfalso. eapply Qlt_not_le; eassumption.
Qed.

Lemma Qlt_bool_false (a b : Q) : Qlt_bool a b = false <-> b <= a.
Proof.
  unfold Qlt_bool. rewrite negb_false_iff. apply Qle_bool_iff.
Qed.

Lemma list_eqb_refl {A} (eqb : A -> A -> bool) (l : list A) :
  (forall a, eqb a a = true) -> list_eqb eqb l l = true.
Proof.
  intros H. induction l as [|a l IH]; [reflexivity|].
  cbn. by rewrite H, IH.
Qed.

Lemma Domain_eqb_refl (d : Domain) : Domain_eqb d d = true.
Proof.
  destruct d as [lb ub | lb ub | ms o | ms | ms o]; cbn [Domain_eqb].
  - by rewrite !Qeq_bool_refl.
  - by rewrite !Z.eqb_refl.
  - rewrite list_eqb_refl by apply Qeq_bool_refl. by destruct o.
  - apply list_eqb_refl. by intros [].
  - rewrite list_eqb_refl by apply String.eqb_refl. by destruct o.
Qed.

Lemma shrink_to_same (d : Domain) : shrink_to d d = Unchanged.
Proof. unfold shrink_to. by rewrite Domain_eqb_refl. Qed.

Lemma filter_keeps_all {A} (f : A -> bool) (l : list A) :
  (forall a, In a l -> f a = true) -> List.filter f l = l.
Proof.
  induction l as [|a l IH]; intros H; [reflexivity|].
  cbn. rewrite (H a) by (by left). f_equal. apply IH.
  intros b Hb. apply H. by right.
Qed.

Lemma existsb_self {A} (eqb : A -> A -> bool) (l : list A) (a : A) :
  (forall x, eqb x x = true) -> In a l -> existsb (eqb a) l = true.
Proof.
  intros Hrefl Hin. apply existsb_exists. exists a. by split.
Qed.

(** The members listed by an enumerated domain are members of it. *)
Lemma listed_num (ms : list Q) (o : bool) (q : Q) :
  In q ms -> isMember (VNum q) (EnumeratedDomain ms o) = true.
Proof. apply existsb_self, Qeq_bool_refl. Qed.

Lemma listed_bool (ms : list bool) (b : bool) :
  In b ms -> isMember (VBool b) (BoolDomain ms) = true.
Proof. apply existsb_self. by intros []. Qed.

Lemma listed_label (ms : list string) (o : bool) (s : string) :
  In s ms -> isMember (VLabel s) (StringDomain ms o) = true.
Proof. apply existsb_self, String.eqb_refl. Qed.

(** A member of a numeric interval lies within its bounds. *)
Lemma member_within_bounds (d : Domain) (q olb oub : Q) :
  isMember (VNum q) d = true -> numeric_bounds d = Some (olb, oub) ->
  olb <= q /\ q <= oub.
Proof.
  destruct d; cbn; intros Hm Hb; try discriminate Hb;
    injection Hb as <- <-.
  - apply andb_true_iff in Hm as (H1 & H2).
    split; by apply Qle_bool_iff.
  - apply andb_true_iff in Hm as (H1 & H2).
    apply andb_true_iff in H1 as (_ & H1).
    split; by apply Qle_bool_iff.
Qed.

(** The bounds of a non empty numeric interval are members of it. *)
Lemma interval_bounds_members (lb ub : Q) :
  isEmpty (IntervalDomain lb ub) = false ->
  isMember (VNum lb) (IntervalDomain lb ub) = true
  /\ isMember (VNum ub) (IntervalDomain lb ub) = true.
Proof.
  cbn. intros H%Qlt_bool_false.
  split; apply andb_true_iff; split; apply Qle_bool_iff;
    try apply Qle_refl; exact H.
Qed.

Lemma is_integer_inject (z : Z) : is_integer (inject_Z z) = true.
Proof. unfold is_integer. rewrite Qfloor_Z. apply Qeq_bool_refl. Qed.

Lemma intervalInt_bounds_members (lb ub : Z) :
  isEmpty (IntervalIntDomain lb ub) = false ->
  isMember (VNum (inject_Z lb)) (IntervalIntDomain lb ub) = true
  /\ isMember (VNum (inject_Z ub)) (IntervalIntDomain lb ub) = true.
Proof.
  cbn. intros H%Z.ltb_ge. rewrite !is_integer_inject. cbn.
  split; apply andb_true_iff; split; apply Qle_bool_iff;
    rewrite <- Zle_Qle; lia.
Qed.

Lemma intersect_self (d : Domain) : intersect d d = Unchanged.
Proof.
  unfold intersect. destruct (isEmpty d) eqn:He; [reflexivity|].
  destruct d as [lb ub | lb ub | ms o | ms | ms o]; cbn [numeric_bounds].
  - rewrite Qmax_keep, Qmin_keep by apply Qle_refl. apply shrink_to_same.
  - rewrite Qmax_keep, Qmin_keep by apply Qle_refl.
    rewrite Qceiling_Z, Qfloor_Z. apply shrink_to_same.
  - rewrite filter_keeps_all; [apply shrink_to_same|].
    intros q Hq. by apply listed_num.
  - rewrite filter_keeps_all; [apply shrink_to_same|].
    intros b Hb. by apply listed_bool.
  - rewrite filter_keeps_all; [apply shrink_to_same|].
    intros s Hs. by apply listed_label.
Qed.

(** Intersection with a superset reports no change, or is refused for a
    base domain of a kind the domain cannot be intersected with. *)
Lemma intersect_superset (d base : Domain) :
  subset d base ->
  intersect d base = Unchanged \/ intersect d base = Failed TypeMismatch.
Proof.
  intros Hsub. unfold intersect.
  destruct (isEmpty d) eqn:He; [by left|].
  destruct d as [lb ub | lb ub | ms o | ms | ms o].
  - destruct (numeric_bounds base) as [[olb oub]|] eqn:Hb; [|by right].
    left. destruct (interval_bounds_members lb ub He) as (Hl & Hu).
    apply Hsub in Hl, Hu.
    destruct (member_within_bounds base lb olb oub Hl Hb) as (H1 & _).
    destruct (member_within_bounds base ub olb oub Hu Hb) as (_ & H2).
    rewrite Qmax_keep, Qmin_keep by assumption. apply shrink_to_same.
  - destruct (numeric_bounds base) as [[olb oub]|] eqn:Hb; [|by right].
    left. destruct (intervalInt_bounds_members lb ub He) as (Hl & Hu).
    apply Hsub in Hl, Hu.
    destruct (member_within_bounds base _ olb oub Hl Hb) as (H1 & _).
    destruct (member_within_bounds base _ olb oub Hu Hb) as (_ & H2).
    rewrite Qmax_keep, Qmin_keep by assumption.
    rewrite Qceiling_Z, Qfloor_Z. apply shrink_to_same.
  - destruct base; try (by right). left.
    rewrite filter_keeps_all; [apply shrink_to_same|].
    intros q Hq. apply Hsub. by apply listed_num.
  - destruct base; try (by right). left.
    rewrite filter_keeps_all; [apply shrink_to_same|].
    intros b Hb. apply Hsub. by apply listed_bool.
  - destruct base; try (by right). left.
    rewrite filter_keeps_all; [apply shrink_to_same|].
    intros s Hs. apply Hsub. by apply listed_label.
Qed.

(** Between intervals of integers, inclusion of the bounds is inclusion
    of the members. *)
Lemma intervalInt_subset (lb ub blb bub : Z) :
  (blb <= lb)%Z -> (ub <= bub)%Z ->
  subset (IntervalIntDomain lb ub) (IntervalIntDomain blb bub).
Proof.
  intros Hl Hu [q | b | s]; cbn; try discriminate.
  intros H. apply andb_true_iff in H as (H & H2).
  apply andb_true_iff in H as (-> & H1). cbn.
  apply Qle_bool_iff in H1, H2.
  apply andb_true_iff; split; apply Qle_bool_iff.
  - eapply Qle_trans; [|exact H1]. rewrite <- Zle_Qle. exact Hl.
  - eapply Qle_trans; [exact H2|]. rewrite <- Zle_Qle. exact Hu.
Qed.

End DomainAlgebra.

Example intersect_rounds_inward :
  intersect (IntervalIntDomain 1 10) (IntervalDomain (5 # 2) (15 # 2))
  = Changed (IntervalIntDomain 3 7) RESTRICTED.
Proof. reflexivity. Qed.

Example intersect_empties :
  intersect (IntervalIntDomain 1 3) (IntervalIntDomain 5 9)
  = Changed (IntervalIntDomain 5 3) EMPTIED.
Proof. reflexivity. Qed.

Example intersect_labels :
  intersect (StringDomain ["a"; "b"; "c"] false) (StringDomain ["c"; "a"] false)
  = Changed (StringDomain ["a"; "c"] false) RESTRICTED.
Proof. reflexivity. Qed.

Example restrict_to_non_member :
  restrictToSingleton (IntervalIntDomain 1 10) (VNum (inject_Z 11))
  = Failed NotAMember.
Proof. reflexivity. Qed.

(** C6: for every domain D, [D.intersect(D)] reports no change and leaves D
    as it is; for every D and base with D within base, [D.intersect(base)]
    leaves D as it is: no change and no emptying is reported and the domain
    afterwards is D. *)
Theorem intersect_idempotent_and_superset_identity :
  forall D : Domain,
    (intersect D D = Unchanged /\ domain_after D (intersect D D) = D)
    /\ forall base : Domain,
         subset D base ->
         domain_after D (intersect D base) = D
         /\ changed (intersect D base) = false
         /\ emptied (intersect D base) = false.
Proof.
  intros D. split.
  - rewrite intersect_self. by split.
  - intros base Hsub.
    destruct (intersect_superset D base Hsub) as [-> | ->]; by repeat split.
Qed.

Lemma intersect_idempotent_and_superset_identity_witness :
  domain_after (IntervalIntDomain 3 5)
    (intersect (IntervalIntDomain 3 5) (IntervalIntDomain 1 10))
  = IntervalIntDomain 3 5.
Proof.
  destruct (intersect_idempotent_and_superset_identity (IntervalIntDomain 3 5))
    as (_ & H).
  apply (H (IntervalIntDomain 1 10)).
  apply intervalInt_subset; lia.
Defined.

(* --------------------------------------------------------------------- *)
(** ** Propagation stops at the first emptied domain                      *)
(* --------------------------------------------------------------------- *)

Section Emptying.

Lemma event_of_emptied (r : option DomainResult) :
  has_EMPTIED (event_of r) = true ->
  event_of r = [EMPTIED] /\ exists d', r = Some (Changed d' EMPTIED).
Proof.
  destruct r as [[| d' ev |]|]; cbn; try discriminate.
  destruct ev; cbn; try discriminate. intros _. split; [reflexivity|].
  by exists d'.
Qed.

Lemma has_EMPTIED_app (l1 l2 : list DomainEvent) :
  has_EMPTIED (l1 ++ l2) = has_EMPTIED l1 || has_EMPTIED l2.
Proof. apply existsb_app. Qed.

(** An execution that emitted [EMPTIED] emitted it once, last, and ended
    in the very state the emptying operation produced. *)
Lemma exec_ops_emptied (c : ConstraintId) (scope : list VarId)
    (ops : list (nat * DomainOp)) :
  forall e e' evs,
    exec_ops c scope ops e = (e', evs) ->
    has_EMPTIED evs = true ->
    (exists evs0, evs = evs0 ++ [EMPTIED] /\ has_EMPTIED evs0 = false)
    /\ exists e0 v op d',
         mutate (Some c) v op e0 = (e', Some (Changed d' EMPTIED)).
Proof.
  induction ops as [|[pos op] ops IH]; intros e e' evs Hx Hemp;
    cbn [exec_ops] in Hx.
  - injection Hx as <- <-. discriminate Hemp.
  - destruct (scope !! pos) as [v|]; [|by eapply IH].
    destruct (mutate (Some c) v op e) as [e1 r] eqn:Hm.
    destruct (has_EMPTIED (event_of r)) eqn:Hr.
    + injection Hx as <- <-.
      destruct (event_of_emptied r Hr) as (Hev & d' & ->).
      split; [by exists [] |]. by exists e, v, op, d'.
    + destruct (exec_ops c scope ops e1) as [e2 evs'] eqn:Hrec.
      injection Hx as <- <-.
      rewrite has_EMPTIED_app, Hr in Hemp. cbn in Hemp.
      destruct (IH e1 e2 evs' Hrec Hemp) as ((evs0 & -> & H0) & Hinst).
      split; [|exact Hinst].
      exists (event_of r ++ evs0). split; [by rewrite app_assoc|].
      by rewrite has_EMPTIED_app, Hr, H0.
Qed.

(** Whatever a propagation function asks for after the operation that
    empties a domain is not carried out. *)
Lemma exec_ops_stops (c : ConstraintId) (scope : list VarId)
    (pos : nat) (op : DomainOp) (ops : list (nat * DomainOp))
    (v : VarId) e e1 d' :
  scope !! pos = Some v ->
  mutate (Some c) v op e = (e1, Some (Changed d' EMPTIED)) ->
  exec_ops c scope ((pos, op) :: ops) e = (e1, [EMPTIED]).
Proof. intros Hs Hm. cbn [exec_ops]. by rewrite Hs, Hm. Qed.

(** Every logged execution is a run of [execute]. *)
Lemma propagate_loop_log (fuel : nat) :
  forall e e' log,
    propagate_loop fuel e = Some (e', log) ->
    Forall (fun x => exists e0,
              execute (ex_constraint x) e0 = Some (ex_after x, ex_events x))
           log.
Proof.
  induction fuel as [|fuel IH]; intros e e' log H; cbn [propagate_loop] in H;
    destruct (Consistency_eqb (ce_consistency e) Inconsistent);
    try (injection H as <- <-; constructor);
    destruct (pop_next (ce_propagators e)) as [[c ps]|];
    try (injection H as <- <-; constructor); try discriminate H.
  destruct (execute c (with_propagators ps e)) as [[e2 evs]|] eqn:Hx;
    [|by eapply IH].
  destruct (has_EMPTIED evs).
  - injection H as <- <-. constructor; [|constructor]. by eexists.
  - destruct (propagate_loop fuel e2) as [[e3 log']|] eqn:Hrec;
      [|discriminate H].
    injection H as <- <-. constructor; [by eexists | by eapply IH].
Qed.

(** The emptying execution is the last one, and the loop hands back the
    engine that execution left, marked Inconsistent. *)
Lemma propagate_loop_halts (fuel : nat) :
  forall e e' log pre x post,
    propagate_loop fuel e = Some (e', log) ->
    log = pre ++ x :: post ->
    has_EMPTIED (ex_events x) = true ->
    post = [] /\ e' = with_consistency Inconsistent (ex_after x).
Proof.
  induction fuel as [|fuel IH]; intros e e' log pre x post H Hlog Hemp;
    cbn [propagate_loop] in H;
    destruct (Consistency_eqb (ce_consistency e) Inconsistent);
    try (injection H as <- <-; by destruct pre);
    destruct (pop_next (ce_propagators e)) as [[c ps]|];
    try (injection H as <- <-; by destruct pre); try discriminate H.
  destruct (execute c (with_propagators ps e)) as [[e2 evs]|] eqn:Hx;
    [|by eapply IH].
  destruct (has_EMPTIED evs) eqn:Hevs.
  - injection H as <- <-.
    destruct pre as [|y pre]; [|by destruct pre].
    cbn [app] in Hlog. injection Hlog as Hx0 Hpost. subst x post.
    by split.
  - destruct (propagate_loop fuel e2) as [[e3 log']|] eqn:Hrec;
      [|discriminate H].
    injection H as <- <-.
    destruct pre as [|y pre].
    + cbn [app] in Hlog. injection Hlog as Hx0 _. subst x.
      cbn [ex_events] in Hemp. congruence.
    + cbn [app] in Hlog. injection Hlog as _ Hlog. by eapply IH.
Qed.

(** One round is enough: when the constraint that is next empties a
    domain, the loop ends there with a result, whatever is still pending. *)
Lemma propagate_loop_emptied_round (fuel : nat) (e : ConstraintEngine)
    (c : ConstraintId) (ps : list Propagator) (e2 : ConstraintEngine)
    (evs : list DomainEvent) :
  ce_consistency e <> Inconsistent ->
  pop_next (ce_propagators e) = Some (c, ps) ->
  execute c (with_propagators ps e) = Some (e2, evs) ->
  has_EMPTIED evs = true ->
  propagate_loop (S fuel) e
  = Some (with_consistency Inconsistent e2, [mkExecution c evs e2]).
Proof.
  intros Hk Hpop Hx Hemp. cbn [propagate_loop].
  destruct (ce_consistency e); try (by destruct Hk); cbn [Consistency_eqb];
    by rewrite Hpop, Hx, Hemp.
Qed.

End Emptying.



(* --------------------------------------------------------------------- *)
(** ** Two runs on structurally identical engines                         *)
(* --------------------------------------------------------------------- *)

Ltac same_fields :=
  unfold same_structure in *; cbn in *; intuition congruence.

Section TwoRuns.

Variables e1 e2 : ConstraintEngine.
Hypothesis Hsame : same_structure e1 e2.

Lemma same_lookup (v : VarId) :
  match ce_variables e1 !! v, ce_variables e2 !! v with
  | Some a, Some b => var_core a = var_core b
  | None, None => True
  | _, _ => False
  end.
Proof.
  destruct Hsame as (Hv & _).
  apply (f_equal (fun l => l !! v)) in Hv.
  rewrite !list_lookup_fmap in Hv.
  revert Hv.
  destruct (ce_variables e1 !! v), (ce_variables e2 !! v); cbn;
    intros Hv; try discriminate Hv; [congruence | exact I].
Qed.

Lemma same_current_domain (v : VarId) :
  current_domain e1 v = current_domain e2 v.
Proof.
  unfold current_domain. generalize (same_lookup v).
  destruct (ce_variables e1 !! v) as [a|], (ce_variables e2 !! v) as [b|];
    intros H; try contradiction; [|reflexivity].
  cbn. unfold var_core in H. by injection H as -> _ _ _.
Qed.

Lemma same_scope_domains (scope : list VarId) :
  scope_domains e1 scope = scope_domains e2 scope.
Proof. apply mapM_ext, same_current_domain. Qed.

Lemma same_with_propagators (ps : list Propagator) :
  same_structure (with_propagators ps e1) (with_propagators ps e2).
Proof. same_fields. Qed.

Lemma same_with_consistency (k : Consistency) :
  same_structure (with_consistency k e1) (with_consistency k e2).
Proof. same_fields. Qed.

Lemma same_with_propagating (b : bool) :
  same_structure (with_propagating b e1) (with_propagating b e2).
Proof. same_fields. Qed.

Lemma same_with_requested (b : bool) :
  same_structure (with_requested b e1) (with_requested b e2).
Proof. same_fields. Qed.

Lemma same_activate (c : ConstraintId) :
  same_structure (activate c e1) (activate c e2).
Proof.
  unfold activate. destruct Hsame as (Hv & Hc & Hp & Hrest).
  rewrite Hc, Hp. destruct (ce_constraints e2 !! c) as [k|]; [|exact Hsame].
  destruct (c_validity k); try exact Hsame. apply same_with_propagators.
Qed.

End TwoRuns.

Lemma apply_op_core (a b : ConstrainedVariable) (op : DomainOp) :
  var_core a = var_core b -> apply_op a op = apply_op b op.
Proof.
  unfold var_core. intros H. injection H as Hc Hb _ _.
  destruct op; cbn; by rewrite ?Hc, ?Hb.
Qed.

Lemma same_activations (executing : option ConstraintId)
    (cs : list ConstraintId) :
  forall e1 e2,
    same_structure e1 e2 ->
    same_structure
      (fold_left (fun e' c =>
                    match executing with
                    | Some x => if Nat.eqb x c then e' else activate c e'
                    | None => activate c e'
                    end) cs e1)
      (fold_left (fun e' c =>
                    match executing with
                    | Some x => if Nat.eqb x c then e' else activate c e'
                    | None => activate c e'
                    end) cs e2).
Proof.
  induction cs as [|c cs IH]; intros e1 e2 H; [exact H|].
  cbn [fold_left]. apply IH.
  destruct executing as [x|]; [destruct (Nat.eqb x c)|];
    try exact H; by apply same_activate.
Qed.

Lemma same_notify (executing : option ConstraintId) (v : VarId) e1 e2 :
  same_structure e1 e2 ->
  same_structure (notify executing v e1) (notify executing v e2).
Proof.
  intros H. unfold notify. generalize (same_lookup e1 e2 H v).
  destruct (ce_variables e1 !! v) as [a|], (ce_variables e2 !! v) as [b|];
    intros Hl; try contradiction; [|exact H].
  unfold var_core in Hl. injection Hl as _ _ _ ->.
  by apply same_activations.
Qed.

Lemma same_mutate (executing : option ConstraintId) (v : VarId)
    (op : DomainOp) e1 e2 :
  same_structure e1 e2 ->
  same_structure (mutate executing v op e1).1 (mutate executing v op e2).1
  /\ (mutate executing v op e1).2 = (mutate executing v op e2).2.
Proof.
  intros H. unfold mutate. generalize (same_lookup e1 e2 H v).
  destruct (ce_variables e1 !! v) as [a|], (ce_variables e2 !! v) as [b|];
    intros Hl; try contradiction; [|by split].
  rewrite (apply_op_core a b op Hl).
  destruct (apply_op b op) as [| d' ev | err]; cbn [fst snd]; try (by split).
  split; [|reflexivity]. apply same_notify.
  destruct H as (Hv & Hrest). split; [|exact Hrest]. cbn.
  rewrite !list_fmap_insert, Hv. f_equal.
  unfold var_core in *. cbn. by injection Hl as _ -> -> ->.
Qed.

Lemma same_exec_ops (c : ConstraintId) (scope : list VarId)
    (ops : list (nat * DomainOp)) :
  forall e1 e2,
    same_structure e1 e2 ->
    same_structure (exec_ops c scope ops e1).1 (exec_ops c scope ops e2).1
    /\ (exec_ops c scope ops e1).2 = (exec_ops c scope ops e2).2.
Proof.
  induction ops as [|[pos op] ops IH]; intros e1 e2 H; [by split|].
  cbn [exec_ops]. destruct (scope !! pos) as [v|]; [|by apply IH].
  generalize (same_mutate (Some c) v op e1 e2 H).
  destruct (mutate (Some c) v op e1) as [a r1],
           (mutate (Some c) v op e2) as [b r2].
  cbn [fst snd]. intros (Hm & Hr). subst r2.
  destruct (has_EMPTIED (event_of r1)); [by split|].
  generalize (IH a b Hm).
  destruct (exec_ops c scope ops a) as [a' evs1],
           (exec_ops c scope ops b) as [b' evs2].
  cbn [fst snd]. intros (Hx & Hevs). by subst evs2.
Qed.

Lemma same_execute (c : ConstraintId) e1 e2 :
  same_structure e1 e2 ->
  match execute c e1, execute c e2 with
  | Some (a, evs1), Some (b, evs2) => same_structure a b /\ evs1 = evs2
  | None, None => True
  | _, _ => False
  end.
Proof.
  intros H. unfold execute.
  pose proof H as (Hv & Hc & Hrest). rewrite Hc.
  destruct (ce_constraints e2 !! c) as [k|]; [|exact I].
  rewrite (same_scope_domains e1 e2 H).
  destruct (c_validity k); try exact I.
  destruct (scope_domains e2 (c_scope k)) as [ds|]; [|exact I].
  generalize (same_exec_ops c (c_scope k) (c_function k ds) e1 e2 H).
  destruct (exec_ops c (c_scope k) (c_function k ds) e1) as [a evs1],
           (exec_ops c (c_scope k) (c_function k ds) e2) as [b evs2].
  cbn [fst snd]. by intros (Hx & Hevs).
Qed.

Lemma same_execution (c : ConstraintId) (evs : list DomainEvent) a b :
  same_structure a b ->
  execution_alike (mkExecution c evs a) (mkExecution c evs b).
Proof. intros H. split; [reflexivity|]. split; [reflexivity | exact H]. Qed.

Lemma same_propagate_loop (fuel : nat) :
  forall e1 e2,
    same_structure e1 e2 ->
    run_alike (propagate_loop fuel e1) (propagate_loop fuel e2).
Proof.
  induction fuel as [|fuel IH]; intros e1 e2 H; cbn [propagate_loop];
    pose proof H as (Hv & Hc & Hp & Hk & Hrest); rewrite Hk, Hp;
    destruct (Consistency_eqb (ce_consistency e2) Inconsistent);
    try (split; [exact H | constructor]);
    destruct (pop_next (ce_propagators e2)) as [[c ps]|];
    try exact I;
    try (split; [by apply same_with_consistency | constructor]).
  generalize (same_execute c _ _ (same_with_propagators e1 e2 H ps)).
  destruct (execute c (with_propagators ps e1)) as [[a evs1]|],
           (execute c (with_propagators ps e2)) as [[b evs2]|];
    intros Hx; try contradiction.
  - destruct Hx as (Hab & <-).
    destruct (has_EMPTIED evs1).
    + split; [by apply same_with_consistency|].
      constructor; [by apply same_execution | constructor].
    + generalize (IH a b Hab).
      destruct (propagate_loop fuel a) as [[a' l1]|],
               (propagate_loop fuel b) as [[b' l2]|]; intros Hrec;
        try contradiction; [|exact I].
      destruct Hrec as (H' & Hl). split; [exact H'|].
      constructor; [by apply same_execution | exact Hl].
  - apply IH. by apply same_with_propagators.
Qed.

Lemma same_propagate (fuel : nat) e1 e2 :
  same_structure e1 e2 ->
  propagate_alike (propagate fuel e1) (propagate fuel e2).
Proof.
  intros H. unfold propagate.
  pose proof H as (Hv & Hc & Hp & Hk & Hg & Hd & Hr). rewrite Hg, Hd.
  destruct (ce_propagating e2); [exact I|].
  destruct (negb (ce_deferred e2 =? 0)%nat);
    [by apply same_with_requested|].
  generalize (same_propagate_loop fuel _ _
                (same_with_propagating e1 e2 H true)).
  destruct (propagate_loop fuel (with_propagating true e1)) as [[a l1]|],
           (propagate_loop fuel (with_propagating true e2)) as [[b l2]|];
    intros Hl; try contradiction; [|exact I].
  destruct Hl as (Hab & Hl). split; [by apply same_with_propagating | exact Hl].
Qed.

Lemma admissible_core (a b : ConstrainedVariable) (op : DomainOp) :
  var_core a = var_core b -> admissible a op = admissible b op.
Proof.
  unfold var_core. intros H. injection H as _ Hb Hs _.
  destruct op; cbn; by rewrite ?Hb, ?Hs.
Qed.

Lemma same_edit (fuel : nat) (v : VarId) (op : DomainOp) e1 e2 :
  same_structure e1 e2 ->
  edit_alike (edit fuel v op e1) (edit fuel v op e2).
Proof.
  intros H. unfold edit. generalize (same_lookup e1 e2 H v).
  destruct (ce_variables e1 !! v) as [a|], (ce_variables e2 !! v) as [b|];
    intros Hl; try contradiction; [|reflexivity].
  rewrite (admissible_core a b op Hl).
  destruct (admissible b op); [reflexivity|].
  generalize (same_mutate None v op e1 e2 H).
  destruct (mutate None v op e1) as [a' r1], (mutate None v op e2) as [b' r2].
  cbn [fst snd]. intros (Hm & Hr). subst r2.
  destruct r1 as [[| d' ev | err]|]; try (split; [exact H | constructor]);
    [|reflexivity].
  pose proof Hm as (_ & _ & _ & Hk & _). rewrite Hk.
  generalize (same_propagate fuel _ _
                (same_with_consistency a' b' Hm
                   (after_event ev (ce_consistency b')))).
  destruct (propagate fuel
              (with_consistency (after_event ev (ce_consistency b')) a'))
    as [| a2 | a2 l1 |],
    (propagate fuel
       (with_consistency (after_event ev (ce_consistency b')) b'))
    as [| b2 | b2 l2 |]; intros Hp; try contradiction; try reflexivity;
    try exact Hp.
  split; [exact Hp | constructor].
Qed.

Lemma same_replay (fuel : nat) (edits : list (VarId * DomainOp)) :
  forall e1 e2,
    same_structure e1 e2 ->
    run_alike (replay fuel edits e1) (replay fuel edits e2).
Proof.
  induction edits as [|[v op] edits IH]; intros e1 e2 H; cbn [replay];
    [split; [exact H | constructor]|].
  generalize (same_edit fuel v op e1 e2 H).
  destruct (edit fuel v op e1) as [a l1 | x |],
           (edit fuel v op e2) as [b l2 | y |]; intros He;
    try contradiction; [| by apply IH | exact I].
  destruct He as (Hab & Hl). generalize (IH a b Hab).
  destruct (replay fuel edits a) as [[a' l1']|],
           (replay fuel edits b) as [[b' l2']|]; intros Hrec;
    try contradiction; [|exact I].
  destruct Hrec as (H' & Hl'). split; [exact H'|].
  by apply Forall2_app.
Qed.

(** *** More fuel changes nothing *)

Lemma propagate_loop_mono (fuel : nat) :
  forall fuel' e r,
    propagate_loop fuel e = Some r -> (fuel <= fuel')%nat ->
    propagate_loop fuel' e = Some r.
Proof.
  induction fuel as [|fuel IH]; intros fuel' e r H Hle.
  - cbn [propagate_loop] in H.
    destruct fuel'; cbn [propagate_loop];
      destruct (Consistency_eqb (ce_consistency e) Inconsistent);
      try exact H;
      destruct (pop_next (ce_propagators e)) as [[c ps]|];
      try exact H; discriminate H.
  - destruct fuel' as [|fuel']; [lia|]. cbn [propagate_loop] in *.
    destruct (Consistency_eqb (ce_consistency e) Inconsistent); [exact H|].
    destruct (pop_next (ce_propagators e)) as [[c ps]|]; [|exact H].
    destruct (execute c (with_propagators ps e)) as [[e2 evs]|];
      [|apply IH; [exact H | lia]].
    destruct (has_EMPTIED evs); [exact H|].
    destruct (propagate_loop fuel e2) as [[e3 log]|] eqn:Hrec;
      [|discriminate H].
    rewrite (IH fuel' e2 _ Hrec) by lia. exact H.
Qed.

Lemma propagate_mono (fuel fuel' : nat) e :
  propagate fuel e <> OutOfFuel -> (fuel <= fuel')%nat ->
  propagate fuel' e = propagate fuel e.
Proof.
  unfold propagate. intros H Hle.
  destruct (ce_propagating e); [reflexivity|].
  destruct (negb (ce_deferred e =? 0)%nat); [reflexivity|].
  destruct (propagate_loop fuel (with_propagating true e)) as [[e' log]|]
    eqn:Hl; [|by destruct H].
  by rewrite (propagate_loop_mono fuel fuel' _ _ Hl Hle).
Qed.

Lemma edit_mono (fuel fuel' : nat) (v : VarId) (op : DomainOp) e :
  edit fuel v op e <> EditOutOfFuel -> (fuel <= fuel')%nat ->
  edit fuel' v op e = edit fuel v op e.
Proof.
  unfold edit. intros H Hle.
  destruct (ce_variables e !! v) as [var|]; [|reflexivity].
  destruct (admissible var op); [reflexivity|].
  destruct (mutate None v op e) as [e1 [[| d' ev | err]|]]; try reflexivity.
  rewrite (propagate_mono fuel fuel'); [reflexivity | | exact Hle].
  intros Hp. apply H. by rewrite Hp.
Qed.

Lemma replay_mono (fuel fuel' : nat) (edits : list (VarId * DomainOp)) :
  forall e r,
    replay fuel edits e = Some r -> (fuel <= fuel')%nat ->
    replay fuel' edits e = Some r.
Proof.
  induction edits as [|[v op] edits IH]; intros e r H Hle; [exact H|].
  cbn [replay] in *.
  rewrite (edit_mono fuel fuel' v op e); [| |exact Hle].
  - destruct (edit fuel v op e) as [e1 log1 | err |]; [|by apply IH|exact H].
    destruct (replay fuel edits e1) as [[e2 log2]|] eqn:Hrec;
      [|discriminate H].
    by rewrite (IH e1 _ Hrec Hle).
  - intros He. rewrite He in H. discriminate H.
Qed.

(** *** The order of evaluation *)

(** [pop_next] takes the head of the agenda of the first propagator, in
    priority order, that has anything pending. *)
Lemma pop_next_priority_fifo (ps : list Propagator) (c : ConstraintId)
    (ps' : list Propagator) :
  pop_next ps = Some (c, ps') ->
  exists before p after rest,
    ps = before ++ p :: after
    /\ Forall (fun q => p_agenda q = []) before
    /\ p_agenda p = c :: rest
    /\ ps' = before ++ mkPropagator (p_types p) rest :: after.
Proof.
  revert ps'. induction ps as [|p ps IH]; intros ps' H; [discriminate H|].
  cbn [pop_next] in H. destruct (p_agenda p) as [|c0 rest] eqn:Ha.
  - destruct (pop_next ps) as [[c1 ps1]|]; [|discriminate H].
    injection H as -> <-.
    destruct (IH ps1 eq_refl) as (before & q & after & rest & -> & Hb & Hq & ->).
    exists (p :: before), q, after, rest.
    repeat split; try done. by constructor.
  - injection H as -> <-. exists [], p, ps, rest. by repeat split.
Qed.

(** [agenda_add] puts a constraint that is not pending behind everything
    that is, and leaves the agenda alone when it is pending already. *)
Lemma agenda_add_fifo (c : ConstraintId) (p : Propagator) :
  (In c (p_agenda p) /\ agenda_add c p = p)
  \/ (~ In c (p_agenda p)
      /\ p_agenda (agenda_add c p) = p_agenda p ++ [c]).
Proof.
  unfold agenda_add. destruct (existsb (Nat.eqb c) (p_agenda p)) eqn:E.
  - left. apply existsb_exists in E as (x & Hin & Hx).
    apply Nat.eqb_eq in Hx. subst x. by split.
  - right. split; [|reflexivity]. intros Hin.
    assert (existsb (Nat.eqb c) (p_agenda p) = true); [|congruence].
    apply existsb_exists. exists c. split; [exact Hin | apply Nat.eqb_refl].
Qed.

Lemma log_alike_executions (l1 l2 : list Execution) :
  log_alike l1 l2 -> executions l1 = executions l2.
Proof.
  induction 1 as [|x y l1 l2 (Hc & He & _) _ IH]; [reflexivity|].
  unfold executions in *. cbn [map]. by rewrite Hc, He, IH.
Qed.

(** *** The loop computes the runs *)

Lemma Consistency_eqb_eq (a b : Consistency) :
  Consistency_eqb a b = true <-> a = b.
Proof.
  destruct a, b; cbn; split; intros H; try reflexivity; discriminate H.
Qed.

Lemma Consistency_eqb_neq (a b : Consistency) :
  a <> b -> Consistency_eqb a b = false.
Proof.
  intros H. destruct (Consistency_eqb a b) eqn:E; [|reflexivity].
  apply Consistency_eqb_eq in E. contradiction.
Qed.

Lemma next_in_order_pop_next (ps : list Propagator) (c : ConstraintId)
    (ps' : list Propagator) :
  next_in_order ps c ps' <-> pop_next ps = Some (c, ps').
Proof.
  split; [|apply pop_next_priority_fifo].
  intros (before & p & after & rest & -> & Hb & Hp & ->).
  unfold quiescent in Hb.
  induction Hb as [|q before Hq Hb IH]; cbn [pop_next app].
  - by rewrite Hp.
  - by rewrite Hq, IH.
Qed.

Lemma quiescent_pop_next (ps : list Propagator) :
  quiescent ps <-> pop_next ps = None.
Proof.
  unfold quiescent. induction ps as [|p ps IH]; cbn [pop_next].
  - split; [reflexivity | constructor].
  - split.
    + intros H. inversion H as [|? ? Hp Hps]; subst.
      rewrite Hp. apply IH in Hps. by rewrite Hps.
    + destruct (p_agenda p) eqn:Hp; [|discriminate].
      destruct (pop_next ps) as [[c ps'']|] eqn:E; [discriminate|].
      intros _. constructor; [exact Hp | by apply IH].
Qed.

(** Only one constraint is next, and only one list of agendas is left. *)
Lemma next_in_order_unique (ps : list Propagator) c1 ps1 c2 ps2 :
  next_in_order ps c1 ps1 -> next_in_order ps c2 ps2 ->
  c1 = c2 /\ ps1 = ps2.
Proof.
  intros H1%next_in_order_pop_next H2%next_in_order_pop_next.
  rewrite H1 in H2. by injection H2 as -> ->.
Qed.

Lemma propagate_loop_run (fuel : nat) :
  forall e r log, propagate_loop fuel e = Some (r, log) -> loop_run e log r.
Proof.
  induction fuel as [|fuel IH]; intros e r log H; cbn [propagate_loop] in H;
    destruct (Consistency_eqb (ce_consistency e) Inconsistent) eqn:Hk;
    try (apply Consistency_eqb_eq in Hk; injection H as <- <-;
         by apply run_inconsistent);
    assert (Hne : ce_consistency e <> Inconsistent)
      by (intros E; apply Consistency_eqb_eq in E; congruence);
    destruct (pop_next (ce_propagators e)) as [[c ps]|] eqn:Hp;
    try (injection H as <- <-; apply run_quiescent;
         [exact Hne | by apply quiescent_pop_next]);
    [discriminate H|].
  apply next_in_order_pop_next in Hp.
  destruct (execute c (with_propagators ps e)) as [[e2 evs]|] eqn:Hx.
  - destruct (has_EMPTIED evs) eqn:Hem.
    + injection H as <- <-. by eapply run_emptied.
    + destruct (propagate_loop fuel e2) as [[e3 log']|] eqn:Hrec;
        [|discriminate H].
      injection H as <- <-. eapply run_executed; eauto.
  - eapply run_passed_over; eauto.
Qed.

Lemma loop_run_propagate_loop e log r :
  loop_run e log r -> exists fuel, propagate_loop fuel e = Some (r, log).
Proof.
  induction 1 as [e Hk | e Hk Hq | e c ps log e' Hk Hn Hx Hrun IH
                 | e c ps e2 evs Hk Hn Hx Hem
                 | e c ps e2 evs log e3 Hk Hn Hx Hem Hrun IH].
  - exists 0%nat. cbn [propagate_loop]. by rewrite Hk.
  - exists 0%nat. cbn [propagate_loop].
    rewrite Consistency_eqb_neq by exact Hk.
    apply quiescent_pop_next in Hq. by rewrite Hq.
  - destruct IH as [fuel Hf]. exists (S fuel). cbn [propagate_loop].
    rewrite Consistency_eqb_neq by exact Hk.
    apply next_in_order_pop_next in Hn. by rewrite Hn, Hx.
  - exists 1%nat. cbn [propagate_loop].
    rewrite Consistency_eqb_neq by exact Hk.
    apply next_in_order_pop_next in Hn. by rewrite Hn, Hx, Hem.
  - destruct IH as [fuel Hf]. exists (S fuel). cbn [propagate_loop].
    rewrite Consistency_eqb_neq by exact Hk.
    apply next_in_order_pop_next in Hn. by rewrite Hn, Hx, Hem, Hf.
Qed.

(** The first execution in the log of a run is that of the constraint that
    was next in order, and the rest of the log is a run from the engine
    that execution left. *)
Lemma loop_run_first e x log r :
  loop_run e (x :: log) r ->
  exists e0 ps,
    passes_over e e0
    /\ ce_consistency e0 <> Inconsistent
    /\ next_in_order (ce_propagators e0) (ex_constraint x) ps
    /\ execute (ex_constraint x) (with_propagators ps e0)
       = Some (ex_after x, ex_events x)
    /\ (has_EMPTIED (ex_events x) = true ->
        log = [] /\ r = with_consistency Inconsistent (ex_after x))
    /\ (has_EMPTIED (ex_events x) = false -> loop_run (ex_after x) log r).
Proof.
  intros H. remember (x :: log) as l eqn:El. revert x log El.
  induction H as [e Hk | e Hk Hq | e c ps log e' Hk Hn Hx Hrun IH
                 | e c ps e2 evs Hk Hn Hx Hem
                 | e c ps e2 evs log e3 Hk Hn Hx Hem Hrun IH];
    intros x0 log0 El; try discriminate El.
  - destruct (IH x0 log0 El) as (e0 & ps0 & Hp & Hrest).
    exists e0, ps0. split; [by eapply passes_one | exact Hrest].
  - injection El as <- <-. exists e, ps. cbn [ex_constraint ex_after ex_events].
    split; [constructor|]. split; [exact Hk|]. split; [exact Hn|].
    split; [exact Hx|]. split; [done | congruence].
  - injection El as <- <-. exists e, ps. cbn [ex_constraint ex_after ex_events].
    split; [constructor|]. split; [exact Hk|]. split; [exact Hn|].
    split; [exact Hx|]. split; [congruence | done].
Qed.

Lemma propagates_propagate e r :
  propagates e r <-> exists fuel, propagate fuel e = r /\ r <> OutOfFuel.
Proof.
  split.
  - intros [e0 Hg | e0 Hg Hd | e0 log e' Hg Hd Hrun].
    + exists 0%nat. unfold propagate. by rewrite Hg.
    + exists 0%nat. unfold propagate. rewrite Hg.
      apply Nat.eqb_neq in Hd. by rewrite Hd.
    + apply loop_run_propagate_loop in Hrun as [fuel Hf].
      exists fuel. unfold propagate. by rewrite Hg, Hd, Hf.
  - intros (fuel & <- & Hne). unfold propagate in *.
    destruct (ce_propagating e) eqn:Hg; [by constructor|].
    destruct (Nat.eqb_spec (ce_deferred e) 0) as [Hd | Hd]; cbn [negb] in *;
      [|by constructor].
    destruct (propagate_loop fuel (with_propagating true e))
      as [[e' log]|] eqn:Hl; [|by destruct Hne].
    constructor; [exact Hg | exact Hd | by eapply propagate_loop_run].
Qed.

Lemma edit_is_edit_result (fuel : nat) (v : VarId) (op : DomainOp) e var e1
    d' ev :
  ce_variables e !! v = Some var -> admissible var op = None ->
  mutate None v op e = (e1, Some (Changed d' ev)) ->
  edit fuel v op e
  = edit_result
      (propagate fuel
         (with_consistency (after_event ev (ce_consistency e1)) e1)).
Proof.
  intros Hv Ha Hm. unfold edit. rewrite Hv, Ha, Hm. reflexivity.
Qed.

Lemma edits_to_edit (v : VarId) (op : DomainOp) e r :
  edits_to v op e r
  <-> exists fuel, edit fuel v op e = r /\ r <> EditOutOfFuel.
Proof.
  split.
  - intros [Hv | var err Hv Ha | var e1 err Hv Ha Hm | var e1 Hv Ha Hm
           | var e1 d' ev r0 Hv Ha Hm Hp].
    + exists 0%nat. unfold edit. by rewrite Hv.
    + exists 0%nat. unfold edit. by rewrite Hv, Ha.
    + exists 0%nat. unfold edit. by rewrite Hv, Ha, Hm.
    + exists 0%nat. unfold edit. by rewrite Hv, Ha, Hm.
    + apply propagates_propagate in Hp as (fuel & Hp & Hne).
      exists fuel. rewrite (edit_is_edit_result fuel v op e var e1 d' ev)
        by assumption.
      rewrite Hp. split; [reflexivity|].
      destruct r0; try discriminate. by destruct Hne.
  - intros (fuel & <- & Hne).
    destruct (ce_variables e !! v) as [var|] eqn:Hv;
      [|unfold edit; rewrite Hv; by constructor].
    destruct (admissible var op) as [err|] eqn:Ha;
      [unfold edit; rewrite Hv, Ha; by econstructor|].
    destruct (mutate None v op e) as [e1 [[| d' ev | err]|]] eqn:Hm.
    + unfold edit. rewrite Hv, Ha, Hm. by eapply edit_unchanged.
    + rewrite (edit_is_edit_result fuel v op e var e1 d' ev) in *
        by assumption.
      eapply edit_changed; eauto.
      apply propagates_propagate. exists fuel. split; [reflexivity|].
      intros E. apply Hne. by rewrite E.
    + unfold edit. rewrite Hv, Ha, Hm. by eapply edit_refused.
    + exfalso. unfold mutate in Hm. rewrite Hv in Hm.
      destruct (apply_op var op); discriminate Hm.
Qed.

Lemma replay_replays (fuel : nat) (edits : list (VarId * DomainOp)) :
  forall e r log,
    replay fuel edits e = Some (r, log) -> replays edits e log r.
Proof.
  induction edits as [|[v op] edits IH]; intros e r log H;
    cbn [replay] in H.
  - injection H as <- <-. constructor.
  - destruct (edit fuel v op e) as [e1 log1 | err |] eqn:He;
      [| |discriminate H].
    + destruct (replay fuel edits e1) as [[e2 log2]|] eqn:Hr;
        [|discriminate H].
      injection H as <- <-. eapply replays_edited; [|by apply IH].
      apply edits_to_edit. exists fuel. by split.
    + eapply replays_rejected; [|by apply IH].
      apply edits_to_edit. exists fuel. split; [exact He | discriminate].
Qed.

Lemma replays_replay (edits : list (VarId * DomainOp)) e log r :
  replays edits e log r -> exists fuel, replay fuel edits e = Some (r, log).
Proof.
  induction 1 as [e | v op rest e e1 log1 log2 e2 He Hr IH
                 | v op rest e err log e2 He Hr IH].
  - by exists 0%nat.
  - apply edits_to_edit in He as (f1 & He & Hne).
    destruct IH as (f2 & Hf). exists (Nat.max f1 f2). cbn [replay].
    rewrite (edit_mono f1 (Nat.max f1 f2)); [| by rewrite He | lia].
    rewrite He. by rewrite (replay_mono f2 (Nat.max f1 f2) _ _ _ Hf) by lia.
  - apply edits_to_edit in He as (f1 & He & Hne).
    destruct IH as (f2 & Hf). exists (Nat.max f1 f2). cbn [replay].
    rewrite (edit_mono f1 (Nat.max f1 f2)); [| by rewrite He | lia].
    rewrite He. by apply (replay_mono f2); [|lia].
Qed.



(** The two sample runs, spelled out. *)
Example replay_overlap_result :
  match replay 10 sample_edits (engine_overlap "x" "y") with
  | Some (r, log) =>
      executions log = [(0%nat, [RESTRICTED]); (0%nat, [RESTRICTED])]
      /\ current_domain r 0%nat = Some (IntervalIntDomain 6 6)
      /\ current_domain r 1%nat = Some (IntervalIntDomain 6 6)
      /\ ce_consistency r = Consistent
  | None => False
  end.
Proof. vm_compute. repeat split. Qed.

(* ===================================================================== *)
(** * Part III.  Further properties of the code                           *)
(* ===================================================================== *)

(* --------------------------------------------------------------------- *)
(** ** Error: comparison, assignment, copies, setters                     *)
(* --------------------------------------------------------------------- *)

Lemma Error_eq_spec (a b : Error) :
  Error_eq a b = true
  <-> getCondition a = getCondition b /\ getMsg a = getMsg b
      /\ getFile a = getFile b /\ getLine a = getLine b.
Proof.
  unfold Error_eq, getCondition, getMsg, getFile, getLine.
  rewrite !andb_true_iff, !String.eqb_eq, Z.eqb_eq. tauto.
Qed.

Lemma Error_matches_spec (a b : Error) :
  Error_matches a b = true
  <-> getCondition a = getCondition b /\ getMsg a = getMsg b
      /\ getFile a = getFile b.
Proof.
  unfold Error_matches, getCondition, getMsg, getFile.
  rewrite !andb_true_iff, !String.eqb_eq. tauto.
Qed.

(** X1: [operator==] holds exactly when condition, message, file and line
    agree, and is an equivalence relation on Errors; it is not identity,
    since two Errors of different type can compare equal. *)
Theorem Error_eq_is_equivalence :
  (forall a b : Error,
      Error_eq a b = true
      <-> getCondition a = getCondition b /\ getMsg a = getMsg b
          /\ getFile a = getFile b /\ getLine a = getLine b)
  /\ (forall a : Error, Error_eq a a = true)
  /\ (forall a b : Error, Error_eq a b = Error_eq b a)
  /\ (forall a b c : Error,
        Error_eq a b = true -> Error_eq b c = true -> Error_eq a c = true)
  /\ (forall a : Error, forall t : string,
        t <> getType a ->
        Error_eq a (setType a t) = true /\ a <> setType a t).
Proof.
  split; [exact Error_eq_spec|]. split.
  { intros a. by apply Error_eq_spec. }
  split.
  { intros a b. destruct (Error_eq b a) eqn:E.
    - apply Error_eq_spec in E. apply Error_eq_spec. intuition congruence.
    - destruct (Error_eq a b) eqn:E'; [|reflexivity].
      apply Error_eq_spec in E'.
      assert (Error_eq b a = true) by (apply Error_eq_spec; intuition congruence).
      congruence. }
  split.
  { intros a b c H1%Error_eq_spec H2%Error_eq_spec.
    apply Error_eq_spec. intuition congruence. }
  intros a t Ht. split; [by apply Error_eq_spec|].
  intros H. apply Ht. by rewrite H.
Qed.

Lemma Error_eq_is_equivalence_witness :
  Error_eq (Error_of_msg "m") (setType (Error_of_msg "m") "Parse") = true
  /\ Error_of_msg "m" <> setType (Error_of_msg "m") "Parse".
Proof.
  destruct Error_eq_is_equivalence as (_ & _ & _ & _ & H).
  apply (H (Error_of_msg "m") "Parse"). discriminate.
Defined.

(** X2: [matches] is [operator==] without the line: an Error equals
    another exactly when it matches it and the lines agree; matching is
    itself reflexive, symmetric and transitive, and blind to the line and
    to the type. *)
Theorem Error_matches_is_eq_modulo_line :
  (forall a b : Error,
      Error_eq a b = Error_matches a b && (getLine a =? getLine b)%Z)
  /\ (forall a : Error, Error_matches a a = true)
  /\ (forall a b : Error, Error_matches a b = Error_matches b a)
  /\ (forall a b c : Error,
        Error_matches a b = true -> Error_matches b c = true ->
        Error_matches a c = true)
  /\ (forall (a : Error) (l : Z) (t : string),
        Error_matches a (mkError (m_condition a) (m_msg a) (m_file a) l t)
        = true).
Proof.
  split; [reflexivity|]. split.
  { intros a. by apply Error_matches_spec. }
  split.
  { intros a b. unfold Error_matches.
    by rewrite (String.eqb_sym (m_condition a)), (String.eqb_sym (m_msg a)),
      (String.eqb_sym (m_file a)). }
  split.
  { intros a b c H1%Error_matches_spec H2%Error_matches_spec.
    apply Error_matches_spec. intuition congruence. }
  intros a l t. by apply Error_matches_spec.
Qed.

Lemma Error_matches_is_eq_modulo_line_witness :
  Error_matches (Error_cfl "c" "f.cc" 1) (Error_cfl "c" "f.cc" 9) = true
  /\ Error_eq (Error_cfl "c" "f.cc" 1) (Error_cfl "c" "f.cc" 9) = false.
Proof.
  destruct Error_matches_is_eq_modulo_line as (Heq & _ & _ & Htrans & _).
  split.
  - apply (Htrans _ (Error_cfl "c" "f.cc" 5)); reflexivity.
  - rewrite Heq. reflexivity.
Defined.

(** X3: after the assignment [t = e] the target compares equal to [e] and
    matches it, whatever it held before; it is identical to [e] exactly
    when the two already had the same type; and of two assignments in a
    row only the second shows. *)
Theorem assignment_makes_equal_not_identical :
  forall t e e' : Error,
    Error_eq (Error_assign t e) e = true
    /\ Error_matches (Error_assign t e) e = true
    /\ (Error_assign t e = e <-> getType t = getType e)
    /\ Error_assign (Error_assign t e) e' = Error_assign t e'
    /\ Error_assign t t = t.
Proof.
  intros t e e'.
  split; [by apply Error_eq_spec|].
  split; [by apply Error_matches_spec|].
  split; [|split; [reflexivity | by destruct t]].
  destruct t, e; unfold Error_assign, getType; cbn. split.
  - intros H. by injection H.
  - intros ->. reflexivity.
Qed.

(** X4: a copy made by the copy constructor equals its original under
    [operator==]; putting the original's type back with [setType] restores
    the original exactly; the copy is identical to the original exactly
    when that type was ["Error"]; copying a copy changes nothing more. *)
Theorem copy_round_trip :
  forall e : Error,
    Error_eq (Error_copy e) e = true
    /\ setType (Error_copy e) (getType e) = e
    /\ (Error_copy e = e <-> getType e = "Error")
    /\ Error_copy (Error_copy e) = Error_copy e.
Proof.
  intros e. split; [apply Error_eq_copy|].
  split; [by destruct e|]. split; [|reflexivity].
  destruct e; unfold Error_copy, getType; cbn. split.
  - intros H. by injection H.
  - intros ->. reflexivity.
Qed.

(** X5: each setter changes the field it names and no other; [setType]
    never changes how an Error compares, while after [setMsg] or [setFile]
    the Error still equals what it was exactly when the new text is the
    old one. *)
Theorem setters_touch_one_field :
  forall (e : Error) (x : string),
    (getMsg (setMsg e x) = x /\ getType (setMsg e x) = getType e
     /\ getFile (setMsg e x) = getFile e /\ getLine (setMsg e x) = getLine e
     /\ getCondition (setMsg e x) = getCondition e)
    /\ (getFile (setFile e x) = x /\ getType (setFile e x) = getType e
        /\ getMsg (setFile e x) = getMsg e /\ getLine (setFile e x) = getLine e
        /\ getCondition (setFile e x) = getCondition e)
    /\ (getType (setType e x) = x /\ Error_eq (setType e x) e = true)
    /\ Error_eq (setMsg e x) e = String.eqb x (getMsg e)
    /\ Error_eq (setFile e x) e = String.eqb x (getFile e)
    /\ setMsg e (getMsg e) = e /\ setFile e (getFile e) = e
    /\ setType e (getType e) = e.
Proof.
  intros e x. split; [by repeat split|]. split; [by repeat split|].
  split; [split; [reflexivity | by apply Error_eq_spec]|].
  split.
  { unfold Error_eq, setMsg, getMsg. cbn [m_condition m_msg m_file m_line].
    rewrite !String.eqb_refl, Z.eqb_refl.
    by destruct (String.eqb x (m_msg e)). }
  split.
  { unfold Error_eq, setFile, getFile. cbn [m_condition m_msg m_file m_line].
    rewrite !String.eqb_refl, Z.eqb_refl.
    by destruct (String.eqb x (m_file e)). }
  by destruct e.
Qed.

(* --------------------------------------------------------------------- *)
(** ** The macros: argument count, assertions, run-time checks            *)
(* --------------------------------------------------------------------- *)

(** X6: [NARG3] yields the number of arguments for one, two or three
    arguments, which is what selects the macro of that arity; handed four
    or more, it yields the caller's own fourth argument instead of a
    count. *)
Theorem NARG3_counts_up_to_three :
  forall args : list Token,
    (1 <= length args <= 3)%nat ->
    NARG3 args = Some (TNum (Z.of_nat (length args)))
    /\ forall more : list Token, forall a b c d : Token,
         NARG3 (a :: b :: c :: d :: more) = Some d.
Proof.
  intros args H. split; [|reflexivity].
  destruct args as [|a [|b [|c [|d args]]]]; cbn in H; try lia; reflexivity.
Qed.

Lemma NARG3_counts_up_to_three_witness :
  NARG3 [TArg "id.isValid()"] = Some (TNum 1)
  /\ NARG3 [TArg "x != NULL"; TArg "msg"] = Some (TNum 2).
Proof.
  split.
  - apply (NARG3_counts_up_to_three [TArg "id.isValid()"]). cbn. lia.
  - apply (NARG3_counts_up_to_three [TArg "x != NULL"; TArg "msg"]).
    cbn. lia.
Defined.

Section Assertions.

Context {St : Type}.
Variables (site : Site) (args : CheckArgs).

Lemma assert_true_is_check_body (cond : prog St Z) g s :
  assertTrue site cond args g s
  = check_body site (let! c := cond in ret (truth c)) args g s.
Proof.
  unfold assertTrue, assert_, check_body, bind, ret, truth.
  destruct (cond g s) as [c g' s' | | |]; try reflexivity.
  cbn [int_of_bool]. by destruct (c =? 0)%Z.
Qed.

Lemma assert_raises_iff (value : bool) (cond : prog St Z) g s c g' s' :
  cond g s = Returned c g' s' ->
  (c = int_of_bool value
   <-> raises (assert_ value site cond args g s) (site_error site args))
  /\ (c <> int_of_bool value ->
      assert_ value site cond args g s = Returned tt g' s').
Proof.
  intros Hc. unfold assert_, bind. rewrite Hc.
  destruct (Z.eqb_spec c (int_of_bool value)) as [E | E].
  - split; [|intros H; contradiction]. split; [|intros _; exact E].
    intros _.
    unfold EUROPA_ERROR, handleAssert, throw, raises, throws, aborts.
    destruct (throwEnabled g'); [left; eexists _, _; reflexivity|].
    right; reflexivity.
  - split; [|reflexivity]. split; [intros H; contradiction|].
    intros [(g2 & s2 & H) | H]; discriminate H.
Qed.

End Assertions.

(** X7: [assertTrue] and [assertFalse] are compiled in whatever the build.
    [assertTrue] ends exactly as [check_runtime_error] does on the truth
    value of the same condition, in both builds: it raises the site's error
    exactly when the condition evaluates to zero.  [assertFalse] compares
    the condition with [true]: it raises exactly when the condition
    evaluates to one, so that on an integer that is neither zero nor one
    neither of the two raises. *)
Theorem assertions_are_always_checked :
  forall (St : Type) (b : Build) (site : Site) (args : CheckArgs)
         (cond : prog St Z) g s,
    assertTrue site cond args g s
    = check_runtime_error b site (let! c := cond in ret (truth c)) args g s
    /\ forall c g' s',
         cond g s = Returned c g' s' ->
         (c = 0 <-> raises (assertTrue site cond args g s)
                           (site_error site args))
         /\ (c = 1 <-> raises (assertFalse site cond args g s)
                              (site_error site args))
         /\ (c <> 0 -> c <> 1 ->
             assertTrue site cond args g s = Returned tt g' s'
             /\ assertFalse site cond args g s = Returned tt g' s').
Proof.
  intros St b site args cond g s.
  split; [apply assert_true_is_check_body|].
  intros c g' s' Hc.
  destruct (assert_raises_iff site args false cond g s c g' s' Hc)
    as (Ht & Ht').
  destruct (assert_raises_iff site args true cond g s c g' s' Hc)
    as (Hf & Hf').
  split; [exact Ht|]. split; [exact Hf|].
  intros H0 H1. split; [by apply Ht' | by apply Hf'].
Qed.

Lemma assertions_are_always_checked_witness :
  @assertTrue unit (mkSite "count" "t.cc" 3) (ret 2) NoArgs statics_abort tt
  = Returned tt statics_abort tt
  /\ @assertFalse unit (mkSite "count" "t.cc" 3) (ret 2) NoArgs
       statics_abort tt
     = Returned tt statics_abort tt.
Proof.
  destruct (assertions_are_always_checked unit Fast (mkSite "count" "t.cc" 3)
              NoArgs (ret 2) statics_abort tt) as (_ & H).
  destruct (H 2 statics_abort tt eq_refl) as (_ & _ & H2).
  apply H2; discriminate.
Defined.

(** X8: [checkRuntimeError(cond, msg)] and [check_runtime_error(cond, msg)]
    at one use run the condition alike and end alike but for the text of
    the condition in the [Error] they raise: the first carries the
    condition as it is written, the second as the preprocessor has expanded
    it.  On a condition that fails the two calls end the same exactly when
    expansion leaves the text as it is. *)
Theorem checkRuntimeError_keeps_condition_as_written :
  forall (St : Type) (tu : TranslationUnit) (b : Build) (u : Use)
         (msg : string) (cond : prog St bool) g s,
    let written := use_checkRuntimeError tu b u cond msg g s in
    let expanded := use_check_runtime_error tu b u cond (WithMsg msg) g s in
    (forall g' s',
       cond g s = Returned true g' s' ->
       written = Returned tt g' s' /\ expanded = Returned tt g' s')
    /\ (forall g' s',
          cond g s = Returned false g' s' ->
          raises written
            (Error_cmfl (use_text u) msg (tu_file tu) (use_line u))
          /\ raises expanded
               (Error_cmfl (tu_expand tu (use_text u)) msg (tu_file tu)
                  (use_line u))
          /\ (written = expanded <-> tu_expand tu (use_text u) = use_text u))
    /\ (tu_expand tu (use_text u) = use_text u -> written = expanded)
    /\ ((forall c g' s', cond g s <> Returned c g' s') ->
        written = expanded).
Proof.
  intros St tu b u msg cond g s written expanded. subst written expanded.
  unfold use_checkRuntimeError, use_check_runtime_error, checkRuntimeError,
    check_runtime_error, check_body, site_written, site_expanded, bind.
  cbn [site_cond site_file site_line site_error].
  split; [intros g' s' Hc; by rewrite Hc|].
  split.
  { intros g' s' Hc. rewrite Hc.
    unfold EUROPA_ERROR, handleAssert, throw, raises, throws, aborts.
    destruct (throwEnabled g').
    - split; [left; eexists _, _; reflexivity|].
      split; [left; eexists _, _; reflexivity|].
      split; [|by intros ->].
      intros H. injection H as H. exact (eq_sym H).
    - split; [by right|]. split; [by right|].
      split; [|by intros ->].
      intros H. injection H as H. exact (eq_sym H). }
  split; [by intros ->|].
  intros Hc. destruct (cond g s) as [c g' s' | | |]; try reflexivity.
  by destruct (Hc c g' s').
Qed.

Lemma checkRuntimeError_keeps_condition_as_written_witness :
  raises
    (@use_checkRuntimeError unit gxx_unit Fast (mkUse "variable != NULL" 34)
       (ret false) "no variable" statics_abort tt)
    (Error_cmfl "variable != NULL" "no variable" "IntervalIntTypeFactory.cc"
       34)
  /\ raises
       (@use_check_runtime_error unit gxx_unit Fast
          (mkUse "variable != NULL" 34) (ret false) (WithMsg "no variable")
          statics_abort tt)
       (Error_cmfl "variable != __null" "no variable"
          "IntervalIntTypeFactory.cc" 34).
Proof.
  destruct (checkRuntimeError_keeps_condition_as_written unit gxx_unit Fast
              (mkUse "variable != NULL" 34) "no variable" (ret false)
              statics_abort tt) as (_ & H & _).
  destruct (H statics_abort tt eq_refl) as (H1 & H2 & _).
  split; [exact H1 | exact H2].
Defined.

(* --------------------------------------------------------------------- *)
(** ** EUROPA_runTest                                                     *)
(* --------------------------------------------------------------------- *)

Section RunTestFacts.

Context {St : Type}.
Variable IdTable_size : prog St Z.
Variable IdTable_checkResult : bool -> Z -> prog St unit.
Variable Error_print : Error -> prog St unit.

Abbreviation runTest := (EUROPA_runTest IdTable_size IdTable_checkResult
                           Error_print).

Lemma runTest_catches (test : prog St bool) g s n g1 s1 e g2 s2 :
  IdTable_size g s = Returned n g1 s1 ->
  test g1 s1 = Thrown e g2 s2 ->
  runTest test g s = Error_print (Error_copy e) g2 s2.
Proof.
  intros Hn Ht. unfold EUROPA_runTest, bind. by rewrite Hn, Ht.
Qed.

Lemma runTest_aborts (test : prog St bool) g s n g1 s1 e :
  IdTable_size g s = Returned n g1 s1 ->
  test g1 s1 = Aborted e ->
  runTest test g s = Aborted e.
Proof.
  intros Hn Ht. unfold EUROPA_runTest, bind. by rewrite Hn, Ht.
Qed.

Lemma runTest_checks (test : prog St bool) g s n g1 s1 r g2 s2 :
  IdTable_size g s = Returned n g1 s1 ->
  test g1 s1 = Returned r g2 s2 ->
  runTest test g s
  = match IdTable_checkResult r n g2 s2 with
    | Thrown e g3 s3 => Error_print (Error_copy e) g3 s3
    | other => other
    end.
Proof.
  intros Hn Ht. unfold EUROPA_runTest, bind. by rewrite Hn, Ht.
Qed.

End RunTestFacts.

(** X9: [EUROPA_runTest] lets no Error thrown by the test escape: it is
    caught, [checkResult] is skipped and the macro ends as printing a copy
    of the exception ends (so it returns when the print returns); an abort
    inside the test is not caught; and when the test returns,
    [checkResult] gets the test's result together with the id count taken
    before the test ran. *)
Theorem runTest_contains_test_errors :
  forall (St : Type) (size : prog St Z)
         (checkResult : bool -> Z -> prog St unit)
         (print : Error -> prog St unit) (test : prog St bool)
         g s n g1 s1,
    size g s = Returned n g1 s1 ->
    (forall e g2 s2,
        test g1 s1 = Thrown e g2 s2 ->
        EUROPA_runTest size checkResult print test g s
        = print (Error_copy e) g2 s2
        /\ ((forall g3 s3, print (Error_copy e) g2 s2 = Returned tt g3 s3 ->
             EUROPA_runTest size checkResult print test g s
             = Returned tt g3 s3)))
    /\ (forall e,
          test g1 s1 = Aborted e ->
          EUROPA_runTest size checkResult print test g s = Aborted e)
    /\ (forall r g2 s2,
          test g1 s1 = Returned r g2 s2 ->
          EUROPA_runTest size checkResult print test g s
          = match checkResult r n g2 s2 with
            | Thrown e g3 s3 => print (Error_copy e) g3 s3
            | other => other
            end).
Proof.
  intros St size checkResult print test g s n g1 s1 Hn.
  split; [|split].
  - intros e g2 s2 Ht.
    rewrite (runTest_catches size checkResult print test _ _ _ _ _ _ _ _ Hn Ht).
    split; [reflexivity | by intros g3 s3 ->].
  - intros e Ht. by eapply runTest_aborts.
  - intros r g2 s2 Ht. by eapply runTest_checks.
Qed.

Lemma runTest_contains_test_errors_witness :
  EUROPA_runTest (ret 0) (fun _ _ => ret tt) (fun _ => ret tt)
    (check_error Checked (mkSite "ok" "t.cc" 9) (ret false) NoArgs ;;
     ret true)
    statics_throw tt
  = Returned tt statics_throw tt.
Proof.
  destruct (runTest_contains_test_errors unit (ret 0) (fun _ _ => ret tt)
              (fun _ => ret tt)
              (check_error Checked (mkSite "ok" "t.cc" 9) (ret false) NoArgs ;;
               ret true)
              statics_throw tt 0 statics_throw tt eq_refl) as (H & _).
  destruct (H (Error_cfl "ok" "t.cc" 9) statics_throw tt eq_refl) as (_ & H2).
  apply (H2 statics_throw tt). reflexivity.
Defined.

(* --------------------------------------------------------------------- *)
(** ** DebugMessage: matching as an order, enabling, guarded statements   *)
(* --------------------------------------------------------------------- *)

Lemma append_nil_r (s : string) : String.append s "" = s.
Proof. induction s as [|c s IH]; [reflexivity|]. by rewrite append_cons, IH. Qed.

Lemma append_assoc (a b c : string) :
  String.append (String.append a b) c = String.append a (String.append b c).
Proof.
  induction a as [|x a IH]; [reflexivity|]. by rewrite !append_cons, IH.
Qed.

Lemma length_append (a b : string) :
  length_ (String.append a b) = length_ a + length_ b.
Proof.
  induction a as [|x a IH]; [rewrite append_nil; unfold length_; cbn; lia|].
  rewrite append_cons, !length_cons, IH. lia.
Qed.

Lemma substring_of_refl (m : string) : substring_of m m.
Proof. exists "", "". by rewrite append_nil, append_nil_r. Qed.

Lemma substring_of_trans (a b c : string) :
  substring_of b a -> substring_of c b -> substring_of c a.
Proof.
  intros (pre & post & ->) (pre' & post' & ->).
  exists (String.append pre pre'), (String.append post' post).
  by rewrite !append_assoc.
Qed.

Lemma substring_of_antisym (a b : string) :
  substring_of b a -> substring_of a b -> a = b.
Proof.
  intros (pre & post & Ha) (pre' & post' & Hb).
  assert (Hl : length_ pre = 0 /\ length_ post = 0).
  { apply (f_equal length_) in Ha, Hb. rewrite !length_append in Ha, Hb.
    pose proof (length_nonneg pre). pose proof (length_nonneg post).
    pose proof (length_nonneg pre'). pose proof (length_nonneg post'). lia. }
  destruct Hl as (H1%length_zero & H2%length_zero). subst pre post.
  by rewrite append_nil, append_nil_r in Ha.
Qed.

(** X10: on markers no longer than a [std::string] can be, matching is a
    partial order: every marker matches itself as a pattern, a pattern of
    a pattern is a pattern, and two markers that match each other are the
    same string; and a pattern that matches a marker matches every marker
    that contains that marker. *)
Theorem markerMatches_is_partial_order :
  forall a b c : string,
    length_ a < npos -> length_ b < npos ->
    markerMatches a a = true
    /\ (markerMatches a b = true -> markerMatches b c = true ->
        markerMatches a c = true)
    /\ (markerMatches a b = true -> markerMatches b a = true -> a = b)
    /\ (forall pre post : string,
          length_ (String.append pre (String.append a post)) < npos ->
          markerMatches a b = true ->
          markerMatches (String.append pre (String.append a post)) b = true).
Proof.
  intros a b c Ha Hb.
  split; [apply markerMatches_iff; [exact Ha | apply substring_of_refl]|].
  split.
  { intros H1%markerMatches_iff H2%markerMatches_iff; try assumption.
    apply markerMatches_iff; [exact Ha|]. by eapply substring_of_trans. }
  split.
  { intros H1%markerMatches_iff H2%markerMatches_iff; try assumption.
    by apply substring_of_antisym. }
  intros pre post Hlen H1%markerMatches_iff; [|exact Ha].
  apply markerMatches_iff; [exact Hlen|].
  eapply substring_of_trans; [|exact H1]. by exists pre, post.
Qed.

Lemma markerMatches_is_partial_order_witness :
  markerMatches "ConstraintEngine:propagate" "gin" = true.
Proof.
  destruct (markerMatches_is_partial_order "ConstraintEngine:propagate"
              "Engine" "gin") as (_ & H & _); [reflexivity | reflexivity |].
  apply H; reflexivity.
Defined.

Lemma land_goodbit (rd : Z) : Z.land rd goodbit = 0.
Proof. apply Z.land_0_r. Qed.

Lemma state_text_goodbit (rd : Z) (text : string) :
  state_text rd goodbit text = "".
Proof. unfold state_text. by rewrite land_goodbit. Qed.

Lemma enable_checked_good (dm : DebugMessage) g :
  enable Checked dm g 0 = Returned (enabled dm) g 0.
Proof. reflexivity. Qed.

Lemma enable_checked_not_good (dm : DebugMessage) g (rd : Z) :
  rd <> 0 ->
  enable Checked dm g rd
  = EUROPA_ERROR
      (Error_cmfl "streamPtr()->good()" (enable_msg rd) "DebugMsg.hh" 307)
      g rd.
Proof.
  intros H. unfold enable, checkError, check_body, bind, good.
  destruct (Z.eqb_spec rd 0) as [E | _]; [by destruct H|].
  unfold EUROPA_ERROR, handleAssert, throw. cbn.
  by destruct (throwEnabled g).
Qed.

(** X11: [enable()] on a message.  Without [EUROPA_FAST]: on a good debug
    stream the message comes back enabled, marker, file and line as they
    were; on a stream that is not good the guard raises, and the message
    of the error names the state bits that are set, at least one of bad,
    eof, fail.  The " good???" text can never appear, [goodbit] being
    zero.  With [EUROPA_FAST] the message is enabled whatever the state of
    the stream. *)
Theorem enable_needs_good_stream_unless_fast :
  forall (dm : DebugMessage) g (rd : Z),
    0 <= rd < 8 ->
    (rd = 0 ->
     enable Checked dm g rd = Returned (enabled dm) g rd
     /\ isEnabled (enabled dm) = true
     /\ getMarker (enabled dm) = getMarker dm
     /\ dm_file (enabled dm) = dm_file dm /\ dm_line (enabled dm) = dm_line dm)
    /\ (rd <> 0 ->
        raises (enable Checked dm g rd)
               (Error_cmfl "streamPtr()->good()" (enable_msg rd)
                  "DebugMsg.hh" 307)
        /\ ~ returns (enable Checked dm g rd)
        /\ String.append (state_text rd badbit " bad ")
             (String.append (state_text rd eofbit " eof ")
                (state_text rd failbit " fail ")) <> "")
    /\ enable_msg rd
       = String.append
           "cannot enable debug message(s) without a good debug stream: "
           (String.append (state_text rd badbit " bad ")
              (String.append (state_text rd eofbit " eof ")
                 (state_text rd failbit " fail ")))
    /\ enable Fast dm g rd = Returned (enabled dm) g rd.
Proof.
  intros dm g rd Hrd. split; [|split; [|split]].
  - intros ->. by repeat split.
  - intros Hne. rewrite enable_checked_not_good by exact Hne.
    unfold EUROPA_ERROR, handleAssert, throw, raises, throws, aborts, returns.
    split; [|split].
    + destruct (throwEnabled g); [left; eexists _, _; reflexivity | by right].
    + intros (a & g' & s' & H). destruct (throwEnabled g); discriminate H.
    + assert (rd = 1 \/ rd = 2 \/ rd = 3 \/ rd = 4 \/ rd = 5 \/ rd = 6
              \/ rd = 7) as Hcases by lia.
      destruct Hcases as [-> | [-> | [-> | [-> | [-> | [-> | ->]]]]]];
        discriminate.
  - unfold enable_msg. by rewrite state_text_goodbit, append_nil_r.
  - reflexivity.
Qed.

Lemma enable_needs_good_stream_unless_fast_witness :
  raises (enable Checked (mkDebugMessage "a.cc" 3 "Engine" false)
            statics_abort 5)
         (Error_cmfl "streamPtr()->good()"
            "cannot enable debug message(s) without a good debug stream:  bad  fail "
            "DebugMsg.hh" 307).
Proof.
  destruct (enable_needs_good_stream_unless_fast
              (mkDebugMessage "a.cc" 3 "Engine" false) statics_abort 5)
    as (_ & H & _); [lia|].
  apply H. discriminate.
Defined.

Section GuardedStatements.

Context {St : Type}.
Variables (cond : prog St bool) (stmt : prog St unit).

Lemma condDebugStmt_disabled (dm : DebugMessage) :
  isEnabled dm = false -> condDebugStmt dm cond stmt = ret tt.
Proof. unfold condDebugStmt. by intros ->. Qed.

Lemma condDebugStmt_enabled (dm : DebugMessage) g s c g' s' :
  isEnabled dm = true -> cond g s = Returned c g' s' ->
  condDebugStmt dm cond stmt g s
  = if c then stmt g' s' else Returned tt g' s'.
Proof.
  unfold condDebugStmt, bind. intros -> ->. by destruct c.
Qed.

End GuardedStatements.

(** X12: a guarded debug statement.  For a disabled message nothing runs,
    not even the condition, so a condition with side effects or one that
    would raise goes unnoticed, and this is the case after [disable()]
    whatever the message was; for an enabled message the condition is
    run and the statement after it exactly when it held.  [debugStmt] is
    the guard with the condition [true], and the level variants ignore the
    level. *)
Theorem guarded_statement_runs_iff_enabled :
  forall (St : Type) (dm : DebugMessage) (cond : prog St bool)
         (stmt : prog St unit) (level : Z) g s,
    condDebugStmt (disable dm) cond stmt g s = Returned tt g s
    /\ (isEnabled dm = false ->
        condDebugStmt dm cond stmt g s = Returned tt g s)
    /\ (forall c g' s',
          cond g s = Returned c g' s' ->
          condDebugStmt (enabled dm) cond stmt g s
          = if c then stmt g' s' else Returned tt g' s')
    /\ debugStmt (enabled dm) stmt g s = stmt g s
    /\ debugStmt (disable dm) stmt g s = Returned tt g s
    /\ condDebugStmtLvl dm cond level stmt g s = condDebugStmt dm cond stmt g s
    /\ debugStmtLvl dm level stmt g s = debugStmt dm stmt g s.
Proof.
  intros St dm cond stmt level g s.
  split; [by rewrite condDebugStmt_disabled|].
  split; [by intros H; rewrite condDebugStmt_disabled|].
  split; [by intros c g' s' Hc; apply condDebugStmt_enabled|].
  by repeat split.
Qed.

Lemma guarded_statement_runs_iff_enabled_witness :
  condDebugStmt (mkDebugMessage "a.cc" 3 "Engine" false)
    (check_error Checked (mkSite "x" "a.cc" 4) (ret false) NoArgs ;; ret true)
    (ret tt) statics_abort tt
  = Returned tt statics_abort tt.
Proof.
  destruct (guarded_statement_runs_iff_enabled unit
              (mkDebugMessage "a.cc" 3 "Engine" false)
              (check_error Checked (mkSite "x" "a.cc" 4) (ret false) NoArgs ;;
               ret true)
              (ret tt) 0 statics_abort tt) as (_ & H & _).
  apply H. reflexivity.
Defined.

(* --------------------------------------------------------------------- *)
(** ** createValue: white space, signs, zeros, size, numerals             *)
(* --------------------------------------------------------------------- *)

Lemma skip_spaces_prefix (ws s : string) :
  all_spaces ws = true ->
  skip_spaces (String.append ws s) = skip_spaces s.
Proof.
  intros Hws. induction ws as [|c ws IH]; [by rewrite append_nil|].
  cbn [all_spaces] in Hws. apply andb_true_iff in Hws as (Hc & Hws).
  rewrite append_cons. cbn [skip_spaces]. rewrite Hc. by apply IH.
Qed.

(** X13: white space in front of a literal is skipped: for every string,
    well formed or not, putting blanks, tabs or line breaks in front of it
    does not change what [createValue] does. *)
Theorem createValue_skips_leading_space :
  forall (St : Type) (ws s : string) g (st : St),
    all_spaces ws = true ->
    createValue (String.append ws s) g st = createValue s g st.
Proof.
  intros St ws s g st Hws. unfold createValue, atoi, strtol_value.
  by rewrite skip_spaces_prefix.
Qed.

Lemma createValue_skips_leading_space_witness :
  @createValue unit (String.append "  " "42x") statics_abort tt
  = @createValue unit "42x" statics_abort tt.
Proof. apply createValue_skips_leading_space. reflexivity. Defined.

Lemma digit_value_range (c : ascii) :
  isdigit c = true -> 0 <= digit_value c <= 9.
Proof.
  unfold isdigit, digit_value. intros H. apply andb_true_iff in H as (H1 & H2).
  apply Z.leb_le in H1, H2. lia.
Qed.

Lemma decimal_range (ds : string) :
  all_digits ds = true -> 0 <= decimal ds < 10 ^ length_ ds.
Proof.
  induction ds as [|c ds IH]; intros H.
  - cbn. change (length_ "") with 0. lia.
  - cbn [all_digits] in H. apply andb_true_iff in H as (Hc & Hds).
    specialize (IH Hds). pose proof (digit_value_range c Hc).
    cbn [decimal]. rewrite length_cons.
    rewrite Z.pow_add_r by (pose proof (length_nonneg ds); lia).
    change (10 ^ 1) with 10. nia.
Qed.

(** X14: up to nine digits always fit.  A string made of white space, an
    optional sign, at most nine digits and a rest that does not go on with
    a digit is read without any overflow: [createValue] returns, and the
    value lies strictly between minus and plus ten to the ninth. *)
Theorem createValue_nine_digits_fit :
  forall (St : Type) (ws : string) (sg : Sign) (ds rest : string) g (st : St),
    all_spaces ws = true ->
    all_digits ds = true ->
    not_first isdigit rest = true ->
    not_first isspace
      (String.append (sign_text sg) (String.append ds rest)) = true ->
    (sg = NoSign -> not_first is_sign (String.append ds rest) = true) ->
    length_ ds <= 9 ->
    createValue
      (String.append ws
         (String.append (sign_text sg) (String.append ds rest))) g st
    = Returned (inject_Z (sign_factor sg * decimal ds)) g st
    /\ - 10 ^ 9 < sign_factor sg * decimal ds < 10 ^ 9.
Proof.
  intros St ws sg ds rest g st Hws Hds Hrest Hbody Hsign Hlen.
  pose proof (decimal_range ds Hds) as Hr.
  assert (10 ^ length_ ds <= 10 ^ 9)
    by (apply Z.pow_le_mono_r; [lia | exact Hlen]).
  assert (Hb : - 10 ^ 9 < sign_factor sg * decimal ds < 10 ^ 9)
    by (destruct sg; cbn [sign_factor]; lia).
  split; [|exact Hb].
  unfold createValue, atoi. rewrite strtol_value_parts by assumption.
  unfold INT_MIN, INT_MAX.
  destruct (Z.leb_spec (- 2 ^ 31) (sign_factor sg * decimal ds)); [|lia].
  destruct (Z.leb_spec (sign_factor sg * decimal ds) (2 ^ 31 - 1)); [|lia].
  reflexivity.
Qed.

Lemma createValue_nine_digits_fit_witness :
  @createValue unit "-999999999;" statics_abort tt
  = Returned (inject_Z (-999999999)) statics_abort tt.
Proof.
  refine (proj1 (createValue_nine_digits_fit unit "" Minus "999999999" ";"
                   statics_abort tt eq_refl eq_refl eq_refl eq_refl _ _)).
  - discriminate.
  - vm_compute. discriminate.
Defined.

Lemma digits_value_nonneg (s : string) (acc : Z) :
  0 <= acc -> 0 <= digits_value acc s.
Proof.
  revert acc. induction s as [|c s IH]; intros acc H; cbn [digits_value];
    [exact H|].
  destruct (isdigit c) eqn:Hc; [|exact H].
  apply IH. pose proof (digit_value_range c Hc). lia.
Qed.

Lemma strtol_value_signed (s : string) :
  strtol_value (String "+" s) = digits_value 0 s
  /\ strtol_value (String "-" s) = - digits_value 0 s.
Proof. split; reflexivity. Qed.

(** X15: the sign.  Whatever follows, a string that reads [v] behind a
    plus sign reads [-v] behind a minus sign, and [v] is not negative; a
    second sign is not read: plus-minus and minus-plus give 0.  The most
    negative [int] is the one value with no positive twin. *)
Theorem createValue_sign_is_symmetric :
  forall (s : string) (v : Z),
    atoi (String "+" s) = Some v ->
    0 <= v
    /\ atoi (String "-" s) = Some (- v)
    /\ atoi (String "+" (String "-" s)) = Some 0
    /\ atoi (String "-" (String "+" s)) = Some 0
    /\ atoi "-2147483648" = Some INT_MIN
    /\ atoi "+2147483648" = None.
Proof.
  intros s v H. unfold atoi in *.
  destruct (strtol_value_signed s) as (Hp & Hm). rewrite Hp in H. rewrite Hm.
  pose proof (digits_value_nonneg s 0 ltac:(lia)) as Hnn.
  destruct (Z.leb_spec INT_MIN (digits_value 0 s)); [|discriminate H].
  destruct (Z.leb_spec (digits_value 0 s) INT_MAX); [|discriminate H].
  injection H as <-. split; [exact Hnn|]. split; [|by repeat split].
  unfold INT_MIN, INT_MAX in *.
  destruct (Z.leb_spec (- 2 ^ 31) (- digits_value 0 s)); [|lia].
  destruct (Z.leb_spec (- digits_value 0 s) (2 ^ 31 - 1)); [|lia].
  reflexivity.
Qed.

Lemma createValue_sign_is_symmetric_witness :
  atoi "-17 apples" = Some (-17).
Proof.
  destruct (createValue_sign_is_symmetric "17 apples" 17 eq_refl)
    as (_ & H & _).
  exact H.
Defined.

Lemma strtol_value_prefix (ws s : string) :
  all_spaces ws = true ->
  strtol_value (String.append ws s) = strtol_value s.
Proof. intros H. unfold strtol_value. by rewrite skip_spaces_prefix. Qed.

Lemma strtol_value_digit (c : ascii) (s : string) :
  isdigit c = true -> strtol_value (String c s) = digits_value 0 (String c s).
Proof.
  intros Hc. unfold strtol_value.
  assert (Hsp : isspace c = false).
  { unfold isdigit, isspace in *.
    apply andb_true_iff in Hc as (H1 & H2). apply Z.leb_le in H1, H2.
    apply orb_false_iff. split; [apply Z.eqb_neq; lia|].
    apply andb_false_iff. right. apply Z.leb_gt. lia. }
  pose proof (digit_not_sign c Hc) as Hsg. unfold is_sign in Hsg.
  apply orb_false_iff in Hsg as (Hplus & Hminus).
  cbn [skip_spaces]. by rewrite Hsp, Hminus, Hplus.
Qed.

Lemma digits_value_zero (s : string) :
  digits_value 0 (String "0" s) = digits_value 0 s.
Proof. reflexivity. Qed.

Lemma strtol_value_leading_zero (ws : string) (sg : Sign) (c : ascii)
    (s : string) :
  all_spaces ws = true ->
  isdigit c = true ->
  strtol_value
    (String.append ws
       (String.append (sign_text sg) (String "0" (String c s))))
  = strtol_value
      (String.append ws (String.append (sign_text sg) (String c s))).
Proof.
  intros Hws Hc.
  rewrite (strtol_value_prefix ws _ Hws), (strtol_value_prefix ws _ Hws).
  destruct sg; cbn [sign_text]; rewrite ?append_cons, !append_nil.
  - rewrite (strtol_value_digit c s Hc).
    rewrite (strtol_value_digit "0" (String c s) eq_refl).
    apply digits_value_zero.
  - destruct (strtol_value_signed (String "0" (String c s))) as (-> & _).
    destruct (strtol_value_signed (String c s)) as (-> & _).
    apply digits_value_zero.
  - destruct (strtol_value_signed (String "0" (String c s))) as (_ & ->).
    destruct (strtol_value_signed (String c s)) as (_ & ->).
    by rewrite digits_value_zero.
Qed.

(** X16: zeros in front of a digit do not count, and do not switch to
    octal: behind the white space and the sign, a ["0"] put in front of a
    string that starts with a digit leaves the result of [createValue] as
    it is. *)
Theorem createValue_ignores_leading_zero :
  forall (St : Type) (ws : string) (sg : Sign) (c : ascii) (s : string)
         g (st : St),
    all_spaces ws = true ->
    isdigit c = true ->
    createValue
      (String.append ws
         (String.append (sign_text sg) (String "0" (String c s)))) g st
    = createValue
        (String.append ws (String.append (sign_text sg) (String c s))) g st.
Proof.
  intros St ws sg c s g st Hws Hc. unfold createValue, atoi.
  by rewrite strtol_value_leading_zero.
Qed.

Lemma createValue_ignores_leading_zero_witness :
  @createValue unit " -010" statics_abort tt
  = @createValue unit " -10" statics_abort tt.
Proof.
  exact (createValue_ignores_leading_zero unit " " Minus "1" "0"
           statics_abort tt eq_refl eq_refl).
Defined.

Lemma digit_char_value (d : Z) :
  0 <= d <= 9 ->
  isdigit (digit_char d) = true /\ digit_value (digit_char d) = d.
Proof.
  intros H.
  assert (d = 0 \/ d = 1 \/ d = 2 \/ d = 3 \/ d = 4 \/ d = 5 \/ d = 6
          \/ d = 7 \/ d = 8 \/ d = 9) as Hd by lia.
  destruct Hd as [-> | [-> | [-> | [-> | [-> | [-> | [-> | [-> | [-> | ->]]]]]]]]];
    split; reflexivity.
Qed.

Lemma all_digits_app (a b : string) :
  all_digits (String.append a b) = all_digits a && all_digits b.
Proof.
  induction a as [|c a IH]; [by rewrite append_nil|].
  rewrite append_cons. cbn [all_digits]. by rewrite IH, andb_assoc.
Qed.

Lemma decimal_app (a b : string) :
  decimal (String.append a b) = decimal a * 10 ^ length_ b + decimal b.
Proof.
  induction a as [|c a IH]; [rewrite append_nil; cbn [decimal]; lia|].
  rewrite append_cons. cbn [decimal]. rewrite IH, length_append.
  rewrite Z.pow_add_r by apply length_nonneg. ring.
Qed.

Lemma numeral_aux_spec (fuel : nat) :
  forall (n : Z) (acc : string),
    0 <= n < 2 ^ Z.of_nat fuel ->
    exists ds,
      numeral_aux fuel n acc = String.append ds acc
      /\ all_digits ds = true /\ decimal ds = n
      /\ ((0 < fuel)%nat -> ds <> "").
Proof.
  induction fuel as [|fuel IH]; intros n acc Hn.
  - exists "". change (2 ^ Z.of_nat 0) with 1 in Hn.
    repeat split; [cbn; lia | lia].
  - cbn [numeral_aux]. destruct (Z.ltb_spec n 10) as [Hlt | Hge].
    + rewrite Z.mod_small by lia.
      destruct (digit_char_value n ltac:(lia)) as (Hd & Hv).
      exists (String (digit_char n) "").
      repeat split; [cbn [all_digits]; by rewrite Hd | | discriminate].
      cbn [decimal]. rewrite Hv. change (length_ "") with 0. lia.
    + assert (Hq : 0 <= n / 10 < 2 ^ Z.of_nat fuel).
      { split; [apply Z.div_pos; lia|].
        apply Z.div_lt_upper_bound; [lia|].
        rewrite Nat2Z.inj_succ, Z.pow_succ_r in Hn by lia. lia. }
      destruct (IH (n / 10) (String (digit_char (n mod 10)) acc) Hq)
        as (ds & Heq & Hds & Hval & _).
      pose proof (Z.mod_pos_bound n 10 ltac:(lia)) as Hm.
      destruct (digit_char_value (n mod 10) ltac:(lia)) as (Hd & Hv).
      exists (String.append ds (String (digit_char (n mod 10)) "")).
      split; [by rewrite Heq, append_assoc|].
      split; [rewrite all_digits_app, Hds; cbn [all_digits]; by rewrite Hd|].
      split.
      * rewrite decimal_app, Hval. cbn [decimal]. rewrite Hv.
        rewrite length_cons. change (length_ "") with 0.
        pose proof (Z.div_mod n 10 ltac:(lia)). change (10 ^ (1 + 0)) with 10.
        change (10 ^ 0) with 1. lia.
      * intros _ H. apply (f_equal length_) in H.
        rewrite length_append, length_cons in H.
        change (length_ "") with 0 in H. pose proof (length_nonneg ds). lia.
Qed.

Lemma numeral_spec (n : Z) :
  0 <= n ->
  all_digits (numeral n) = true /\ decimal (numeral n) = n
  /\ numeral n <> "".
Proof.
  intros Hn. unfold numeral.
  destruct (numeral_aux_spec (S (Z.to_nat (Z.log2 n))) n "") as
    (ds & Heq & Hds & Hval & Hne).
  - rewrite Nat2Z.inj_succ, Z2Nat.id by apply Z.log2_nonneg.
    split; [exact Hn|].
    destruct (Z.eq_dec n 0) as [-> | Hpos]; [reflexivity|].
    apply Z.log2_spec. lia.
  - rewrite Heq, append_nil_r. repeat split; try assumption. apply Hne. lia.
Qed.

Lemma strtol_value_numeral (n : Z) :
  0 <= n -> strtol_value (numeral n) = n
            /\ digits_value 0 (numeral n) = n
            /\ unsigned_literal (numeral n) = true
            /\ not_first is_sign (numeral n) = true.
Proof.
  intros Hn. destruct (numeral_spec n Hn) as (Hds & Hval & Hne).
  assert (Hdv : digits_value 0 (numeral n) = n).
  { rewrite <- (append_nil_r (numeral n)) at 1.
    rewrite digits_value_app by (exact Hds || reflexivity). lia. }
  destruct (numeral n) as [|c ds] eqn:E; [by destruct Hne|].
  pose proof Hds as Hall. cbn [all_digits] in Hds.
  apply andb_true_iff in Hds as (Hc & _).
  split; [by rewrite strtol_value_digit|]. split; [exact Hdv|].
  split; [exact Hall|]. cbn [not_first]. by rewrite (digit_not_sign c Hc).
Qed.

(** X17: printing and reading back.  For every integer an [int] can hold,
    its decimal literal (a minus sign when negative, then the digits) is a
    well-formed literal and [createValue] returns exactly that integer for
    it. *)
Theorem createValue_reads_back_literals :
  forall (St : Type) (z : Z) g (st : St),
    INT_MIN <= z <= INT_MAX ->
    well_formed_literal (int_literal z) = true
    /\ createValue (int_literal z) g st = Returned (inject_Z z) g st.
Proof.
  intros St z g st Hz. unfold int_literal.
  destruct (Z.ltb_spec z 0) as [Hneg | Hpos].
  - destruct (strtol_value_numeral (- z) ltac:(lia)) as (_ & Hdv & Hwf & _).
    split; [exact Hwf|].
    unfold createValue, atoi.
    destruct (strtol_value_signed (numeral (- z))) as (_ & ->). rewrite Hdv.
    replace (- - z) with z by lia.
    destruct (Z.leb_spec INT_MIN z); [|lia].
    destruct (Z.leb_spec z INT_MAX); [|lia]. reflexivity.
  - destruct (strtol_value_numeral z Hpos) as (Hv & _ & Hwf & Hsg).
    split.
    + unfold well_formed_literal. destruct (numeral z) as [|c ds];
        [discriminate Hwf|].
      cbn [not_first] in Hsg. apply negb_true_iff in Hsg. by rewrite Hsg.
    + unfold createValue, atoi. rewrite Hv.
      destruct (Z.leb_spec INT_MIN z); [|lia].
      destruct (Z.leb_spec z INT_MAX); [|lia]. reflexivity.
Qed.

Lemma createValue_reads_back_literals_witness :
  int_literal (-2147483648) = "-2147483648"
  /\ @createValue unit (int_literal (-2147483648)) statics_abort tt
     = Returned (inject_Z (-2147483648)) statics_abort tt.
Proof.
  split; [reflexivity|].
  apply (createValue_reads_back_literals unit (-2147483648) statics_abort tt).
  vm_compute. split; discriminate.
Defined.

(* --------------------------------------------------------------------- *)
(** ** The factory and its own base domain                                *)
(* --------------------------------------------------------------------- *)

(** X18: a factory built from an IntervalInt domain hands that domain back
    as [baseDomain()], and [createVariable] on it succeeds in either build
    and either error mode; doing so twice yields two different identities,
    each naming a variable whose current and base domain are the factory's
    base domain, with the first variable left as it was by the second
    creation. *)
Theorem factory_creates_over_its_base_domain :
  forall (tu : TranslationUnit) (b : Build) (fname : string) (lb ub : Z)
         (internal canBeSpecified : bool) (n1 n2 : string)
         (parent : option EntityId) (index : Z) g e,
    let f := IntervalIntTypeFactory_new fname lb ub in
    baseDomain f = IntervalIntDomain lb ub
    /\ exists id1 e1 id2 e2,
         createVariable tu b (baseDomain f) internal canBeSpecified n1
           parent index g e = Returned id1 g e1
         /\ createVariable tu b (baseDomain f) internal canBeSpecified n2
              parent index g e1 = Returned id2 g e2
         /\ id1 <> id2
         /\ current_domain e2 id1 = Some (baseDomain f)
         /\ current_domain e2 id2 = Some (baseDomain f)
         /\ ce_variables e1 !! id1 = ce_variables e2 !! id1
         /\ length (ce_variables e2) = S (S (length (ce_variables e))).
Proof.
  intros tu b fname lb ub internal canBeSpecified n1 n2 parent index g e f.
  split; [reflexivity|]. subst f. unfold baseDomain. cbn [m_baseDomain
    IntervalIntTypeFactory_new].
  eexists _, _, _, _.
  split; [rewrite createVariable_right_kind; reflexivity|].
  split; [rewrite createVariable_right_kind; reflexivity|].
  cbn [ce_variables with_variables]. rewrite !length_app. cbn [length].
  split; [lia|]. unfold current_domain. cbn [ce_variables with_variables].
  split.
  { rewrite lookup_app_l by (rewrite length_app; cbn; lia).
    rewrite lookup_app_r by lia. by rewrite Nat.sub_diag. }
  split.
  { rewrite lookup_app_r by (rewrite length_app; cbn; lia).
    rewrite length_app. cbn [length].
    by replace (length (ce_variables e) + 1 - (length (ce_variables e) + 1))%nat
      with 0%nat by lia. }
  split; [|lia].
  symmetry. apply lookup_app_l. rewrite length_app. cbn. lia.
Qed.
